(** * Verification of the propagation-only sudoku solver [sudoku.py]

    The program is a Python 2 script.  [sud] performs one sweep over a
    9x9 puzzle, [checkrow], [checkcol] and [checkbox] compute the digits
    missing from a row, a column and a 3x3 box, and [sudoku] reads nine
    lines of digits and repeats [sud] until its result is keyed [True].

    Python lists are Rocq lists read with stdpp's lookup, Python sets are
    [gset Z], Python integers are [Z], loop indices produced by [range]
    are [nat], and an exception is a value of the error monad [res]. *)

From stdpp Require Import base option list gmap strings sorting.
From Stdlib Require Import ZArith.

Local Open Scope Z_scope.

(** ** Exceptions and the error monad *)

Inductive exn : Set := IndexError | ValueError | EOFError.

Inductive res (A : Type) : Type :=
| Ok (a : A)
| Raise (e : exn).
Arguments Ok {A} a.
Arguments Raise {A} e.

#[global] Instance res_ret : MRet res := @Ok.
#[global] Instance res_bind : MBind res := λ A B f m,
  match m with
  | Ok a => f a
  | Raise e => Raise e
  end.

(** ** The Python operations the script uses *)

Module Py.

(** [l[i]] for a non-negative index: [IndexError] out of range. *)
Definition getitem {A} (l : list A) (i : nat) : res A :=
  match l !! i with
  | Some x => Ok x
  | None => Raise IndexError
  end.

(** [l[a:b]] for non-negative bounds: clipped to the list, never raises. *)
Definition slice {A} (l : list A) (a b : nat) : list A :=
  take (b - a)%nat (drop a l).

(** [range(n)]. *)
Definition range (n : nat) : list nat := seq 0 n.

(** [v in l] on a list of integers. *)
Definition contains (v : Z) (l : list Z) : bool := bool_decide (v ∈ l).

(** [for i in l: body], threading the variables the body assigns. *)
Fixpoint for_ {S I} (l : list I) (body : I → S → res S) (s : S) : res S :=
  match l with
  | [] => Ok s
  | i :: l' => s' ← body i s; for_ l' body s'
  end.

(** [set(tuple(l))]. *)
Definition set (l : list Z) : gset Z := list_to_set l.

(** [int(c)] for a one-character string. *)
Definition int (c : Ascii.ascii) : res Z :=
  let n := Ascii.nat_of_ascii c in
  if bool_decide (48 ≤ n ≤ 57)%nat then Ok (Z.of_nat (n - 48)) else Raise ValueError.

(** [map(int, str(inp))]. *)
Definition map_int (inp : String.string) : res (list Z) :=
  mapM int (String.list_ascii_of_string inp).

End Py.

(** ** The puzzle *)

Abbreviation grid := (list (list Z)).

(** ** [checkrow], [checkcol], [checkbox] *)

Definition checkrow (r : nat) (puzzle : grid) : res (list Z) :=
  Py.for_ (Py.range 9) (λ i missing,
    row ← Py.getitem puzzle r;
    Ok (if negb (Py.contains (Z.of_nat i + 1) row)
        then missing ++ [Z.of_nat i + 1] else missing)) [].

Definition checkcol (c : nat) (puzzle : grid) : res (list Z) :=
  Py.for_ (Py.range 9) (λ i missing,
    col ← mapM (λ row, Py.getitem row c) puzzle;
    Ok (if negb (Py.contains (Z.of_nat i + 1) col)
        then missing ++ [Z.of_nat i + 1] else missing)) [].

Definition checkbox (n : nat) (puzzle : grid) : res (list Z) :=
  box ← Py.for_ (Py.range 3) (λ j box,
    row ← Py.getitem puzzle ((n / 3) * 3 + j)%nat;
    Ok (box ++ Py.slice row (3 * (n mod 3))%nat ((n mod 3 + 1) * 3)%nat)) [];
  Py.for_ (Py.range 9) (λ i missing,
    Ok (if negb (Py.contains (Z.of_nat i + 1) box)
        then missing ++ [Z.of_nat i + 1] else missing)) [].

(** ** [sud]: one sweep *)

(** The three tables filled by the first loop of [sud]. *)
Record tables : Type := Tables {
  missingrow : list (list Z);
  missingcol : list (list Z);
  missingbox : list (list Z)
}.

Definition fill_tables (puzzle : grid) : res tables :=
  Py.for_ (Py.range 9) (λ i t,
    mr ← checkrow i puzzle;
    mc ← checkcol i puzzle;
    mb ← checkbox i puzzle;
    Ok (Tables (missingrow t ++ [mr]) (missingcol t ++ [mc]) (missingbox t ++ [mb])))
    (Tables [] [] []).

(** The variables assigned by the scan: [finished] and [solution]. *)
Record scan_state : Type := Scan {
  finished : bool;
  solution : list Z
}.

(** The body of the inner loop, for the cell [(i, j)]. *)
Definition scan_cell (puzzle : grid) (t : tables) (i j : nat) (st : scan_state)
  : res scan_state :=
  row ← Py.getitem puzzle i;
  v ← Py.getitem row j;
  if bool_decide (v = 0) then
    mr ← Py.getitem (missingrow t) i;
    mc ← Py.getitem (missingcol t) j;
    mb ← Py.getitem (missingbox t) ((i / 3) * 3 + j / 3)%nat;
    let mr := Py.set mr in
    let mc := Py.set mc in
    let mb := Py.set mb in
    let tmp := elements ((mr ∩ mc) ∩ mb) in
    if bool_decide (length tmp = 1%nat) then
      x ← Py.getitem tmp 0;
      Ok (Scan false (solution st ++ [x]))
    else
      Ok (Scan false (solution st ++ [0]))
  else
    Ok (Scan (finished st) (solution st ++ [v])).

Definition scan (puzzle : grid) (t : tables) : res scan_state :=
  Py.for_ (Py.range 9) (λ i st,
    Py.for_ (Py.range 9) (λ j st, scan_cell puzzle t i j st) st)
    (Scan true []).

(** The dictionary [{finished: solution1}] as the pair of its key and value. *)
Definition sud (puzzle : grid) : res (bool * grid) :=
  t ← fill_tables puzzle;
  st ← scan puzzle t;
  solution1 ← Py.for_ (Py.range 9) (λ i solution1,
    Ok (solution1 ++ [Py.slice (solution st) (9 * i)%nat (9 * i + 9)%nat])) [];
  Ok (finished st, solution1).

(** ** [sudoku]: the driver *)

(** [raw_input()]: the next line of the standard input, [EOFError] at its end. *)
Definition raw_input (stdin : list String.string) : res (String.string * list String.string) :=
  match stdin with
  | [] => Raise EOFError
  | inp :: stdin' => Ok (inp, stdin')
  end.

(** The input loop: [i] runs from 0 to 8, one line is read and appended per turn. *)
Definition read_puzzle (stdin : list String.string) : res grid :=
  st ← Py.for_ (Py.range 9) (λ _ st,
    r ← raw_input st.2;
    row ← Py.map_int r.1;
    Ok (st.1 ++ [row], r.2)) ([], stdin);
  Ok st.1.

(** What a run of the script ends in.  The loop [while False in done.keys()]
    has no bound of its own; the model runs it for at most [fuel] turns. *)
Inductive run : Type :=
| Solved (g : grid)
| Crashed (e : exn)
| OutOfFuel.

(** [while (False in done.keys()): done = sud(done[False])], then [done[True]]. *)
Fixpoint sudoku_loop (fuel : nat) (done : bool * grid) : run :=
  if done.1 then Solved done.2
  else
    match fuel with
    | O => OutOfFuel
    | S fuel' =>
        match sud done.2 with
        | Ok done' => sudoku_loop fuel' done'
        | Raise e => Crashed e
        end
    end.

(** The part of [sudoku] after the input loop, from [done = sud(puzzle)] on. *)
Definition sudoku_from (fuel : nat) (puzzle : grid) : run :=
  match sud puzzle with
  | Ok done => sudoku_loop fuel done
  | Raise e => Crashed e
  end.

(** The whole script, on the lines of its standard input. *)
Definition sudoku (fuel : nat) (stdin : list String.string) : run :=
  match read_puzzle stdin with
  | Ok puzzle => sudoku_from fuel puzzle
  | Raise e => Crashed e
  end.

(** The same loop as a relation that records the grids it hands to [sud]:
    [loop_runs done swept out] when the loop entered with [done] sweeps the
    grids [swept], in this order, and leaves with [out]. *)
Inductive loop_runs : bool * grid → list grid → grid → Prop :=
| loop_exit g :
    loop_runs (true, g) [] g
| loop_turn g done' swept out :
    sud g = Ok done' →
    loop_runs done' swept out →
    loop_runs (false, g) (g :: swept) out.

(** The grids swept by [sudoku] from [done = sud(puzzle)] on: [puzzle] first,
    then those of the loop. *)
Inductive sudoku_runs (puzzle : grid) : list grid → grid → Prop :=
| sudoku_run done swept out :
    sud puzzle = Ok done →
    loop_runs done swept out →
    sudoku_runs puzzle (puzzle :: swept) out.

(** ** Vocabulary of the statements *)

(** The value of cell [(i, j)]; 0 outside the grid. *)
Definition cell (g : grid) (i j : nat) : Z :=
  default 0 (g !! i ≫= λ row, row !! j).

(** A grid of nine rows of nine values. *)
Definition nine_by_nine (g : grid) : Prop :=
  length g = 9%nat ∧ Forall (λ row, length row = 9%nat) g.

(** What [sud] needs to index its argument without an [IndexError]. *)
Definition indexable (g : grid) : Prop :=
  (9 ≤ length g)%nat ∧ Forall (λ row, 9 ≤ length row)%nat g.

(** No empty cell among the 81. *)
Definition complete (g : grid) : Prop :=
  ∀ i j, (i < 9)%nat → (j < 9)%nat → cell g i j ≠ 0.

(** The same as a test; it is the key [sud] returns. *)
Definition completeb (g : grid) : bool :=
  forallb (λ i, forallb (λ j, negb (bool_decide (cell g i j = 0))) (Py.range 9)) (Py.range 9).

(** The values [i+1] for [i] in [range(9)]. *)
Definition digits : list Z := [1; 2; 3; 4; 5; 6; 7; 8; 9].

(** The digits absent from a list of values, in increasing order. *)
Definition missing_from (vals : list Z) : list Z :=
  filter (λ v, v ∉ vals) digits.

(** [puzzle[r]], the row the first check function searches. *)
Definition row_vals (g : grid) (r : nat) : list Z := default [] (g !! r).

(** [[row[c] for row in puzzle]], the column the second one searches. *)
Definition col_vals (g : grid) (c : nat) : list Z :=
  (λ row, default 0 (row !! c)) <$> g.

(** The list [box] the third one builds from three slices. *)
Definition box_vals (g : grid) (n : nat) : list Z :=
  Py.slice (row_vals g (n / 3 * 3 + 0)) (3 * (n mod 3)) ((n mod 3 + 1) * 3) ++
  Py.slice (row_vals g (n / 3 * 3 + 1)) (3 * (n mod 3)) ((n mod 3 + 1) * 3) ++
  Py.slice (row_vals g (n / 3 * 3 + 2)) (3 * (n mod 3)) ((n mod 3 + 1) * 3).

(** The index at which the scan reads [missingbox] for cell [(i, j)]. *)
Definition box_index (i j : nat) : nat := (i / 3) * 3 + j / 3.

(** The candidate set of cell [(i, j)] on the grid [g]. *)
Definition candidates (g : grid) (i j : nat) : gset Z :=
  (Py.set (missing_from (row_vals g i)) ∩ Py.set (missing_from (col_vals g j)))
  ∩ Py.set (missing_from (box_vals g (box_index i j))).

(** The value the scan appends for a cell whose candidate set is [cand]. *)
Definition pick (cand : gset Z) : Z :=
  match elements cand with
  | [x] => x
  | _ => 0
  end.

(** The value the sweep gives cell [(i, j)], from the grid it was handed. *)
Definition sweep_cell (g : grid) (i j : nat) : Z :=
  if bool_decide (cell g i j = 0) then pick (candidates g i j) else cell g i j.

(** The table of these values: the grid a sweep returns. *)
Definition sweep_grid (g : grid) : grid :=
  (λ i, (λ j, sweep_cell g i j) <$> Py.range 9) <$> Py.range 9.

(** The cells a sweep assigns: empty, with exactly one candidate. *)
Definition assigned (g : grid) (i j : nat) : Prop :=
  cell g i j = 0 ∧ size (candidates g i j) = 1%nat.

(** [k] sweeps in a row, whatever their keys. *)
Fixpoint sweeps (k : nat) (g : grid) : res grid :=
  match k with
  | O => Ok g
  | S k' => done ← sud g; sweeps k' done.2
  end.

(** The number of empty cells. *)
Definition count_empty (g : grid) : nat :=
  length (filter (λ v, v = 0) (concat g)).

(** [s] keeps every clue of [g]. *)
Definition keeps_clues (g s : grid) : Prop :=
  ∀ i j, cell g i j ≠ 0 → cell s i j = cell g i j.

(** A solved grid: nine by nine, no digit missing from any row, column or box. *)
Definition is_solution (s : grid) : Prop :=
  nine_by_nine s ∧
  ∀ i, (i < 9)%nat →
    checkrow i s = Ok [] ∧ checkcol i s = Ok [] ∧ checkbox i s = Ok [].

(** Some solved grid keeps the clues of [g]. *)
Definition solvable (g : grid) : Prop :=
  ∃ s, is_solution s ∧ keeps_clues g s.

(** Two nonzero equal values in one row, column or box. *)
Definition has_duplicate (vals : list Z) : Prop :=
  ∃ a b v, (a < b)%nat ∧ vals !! a = Some v ∧ vals !! b = Some v ∧ v ≠ 0.

(** Some row, column or box of [g] holds a clue twice. *)
Definition duplicate_clue (g : grid) : Prop :=
  ∃ n, (n < 9)%nat ∧
    (has_duplicate (row_vals g n) ∨ has_duplicate (col_vals g n) ∨ has_duplicate (box_vals g n)).

(** The tables of the grid [g], entry by entry. *)
Definition tables_of (g : grid) : tables :=
  Tables ((λ i, missing_from (row_vals g i)) <$> Py.range 9)
         ((λ i, missing_from (col_vals g i)) <$> Py.range 9)
         ((λ i, missing_from (box_vals g i)) <$> Py.range 9).

(** The nine cells of box [n], row by row. *)
Definition box_cells (n : nat) : list (nat * nat) :=
  dr ← Py.range 3; dc ← Py.range 3; [((3 * (n / 3) + dr)%nat, (3 * (n mod 3) + dc)%nat)].

(** ** Sample grids *)

(** The grid in the docstring of [sudoku]. *)
Definition sample : grid :=
  [[0;2;0;9;4;5;0;7;8];
   [0;0;9;0;6;2;0;0;0];
   [0;7;0;1;0;0;2;0;5];
   [0;1;0;8;0;9;4;0;0];
   [0;0;0;0;5;0;0;0;0];
   [0;0;5;4;0;1;0;6;0];
   [1;0;7;0;0;8;0;2;0];
   [0;0;0;3;2;0;1;0;0];
   [8;6;0;5;1;4;0;3;0]].

(** No clue at all. *)
Definition blank : grid := replicate 9 (replicate 9 0).

(** A solved grid: each row is the first one rotated. *)
Definition shifted : grid :=
  [[1;2;3;4;5;6;7;8;9];
   [4;5;6;7;8;9;1;2;3];
   [7;8;9;1;2;3;4;5;6];
   [2;3;4;5;6;7;8;9;1];
   [5;6;7;8;9;1;2;3;4];
   [8;9;1;2;3;4;5;6;7];
   [3;4;5;6;7;8;9;1;2];
   [6;7;8;9;1;2;3;4;5];
   [9;1;2;3;4;5;6;7;8]].

(** The same grid with the two ends of its first row emptied; one sweep
    fills them again. *)
Definition almost : grid := <[0%nat := [0;2;3;4;5;6;7;8;0]]> shifted.

(** One clue in the corner; no cell has a single candidate. *)
Definition lone_clue : grid :=
  [5;0;0;0;0;0;0;0;0] :: replicate 8 (replicate 9 0).

(** What the script prints for [sample]. *)
Definition sample_solved : grid :=
  [[3;2;1;9;4;5;6;7;8];
   [5;8;9;7;6;2;3;4;1];
   [4;7;6;1;8;3;2;9;5];
   [6;1;3;8;7;9;4;5;2];
   [7;4;8;2;5;6;9;1;3];
   [2;9;5;4;3;1;8;6;7];
   [1;3;7;6;9;8;5;2;4];
   [9;5;4;3;2;7;1;8;6];
   [8;6;2;5;1;4;7;3;9]].

(** Cell (0, 0) is empty and has no candidate: 9 is the one digit missing
    from its row, and its column holds a 9.  Cell (8, 8) is empty and has
    the single candidate 9. *)
Definition dead_end : grid :=
  [[0;1;2;3;4;5;6;7;8];
   [0;0;0;0;0;0;0;0;0];
   [0;0;0;0;0;0;0;0;0];
   [9;0;0;0;0;0;0;0;0];
   [0;0;0;0;0;0;0;0;0];
   [0;0;0;0;0;0;0;0;0];
   [0;0;0;0;0;0;0;0;0];
   [0;0;0;0;0;0;0;0;0];
   [1;2;3;4;5;6;7;8;0]].

(** Nine lines of nine ones. *)
Definition ones_input : list String.string :=
  replicate 9 "111111111"%string.

(** The grid they parse to. *)
Definition ones : grid := replicate 9 (replicate 9 1).

(** Ten rows of eleven values; the ninth and tenth are empty, and the
    eleventh is outside the cells the scan visits. *)
Definition long_rows : grid := replicate 10 [1; 2; 3; 4; 5; 6; 7; 8; 0; 0; 3].

(** * Proofs *)

(** ** Loops and list operations *)

Section loops.
Context {S I : Type}.
Implicit Types (l : list I) (body : I → S → res S) (s : S).

(** A loop whose body never raises is a left fold. *)
Lemma for_ok l body (step : I → S → S) s :
  (∀ i s, i ∈ l → body i s = Ok (step i s)) →
  Py.for_ l body s = Ok (foldl (λ s i, step i s) s l).
Proof.
  revert s. induction l as [|i l IH]; intros s Hbody; [done|].
  cbn. rewrite Hbody by left. cbn. apply IH.
  intros i' s' Hi'. apply Hbody. by right.
Qed.

(** A loop that ends normally ran every turn of its body normally. *)
Lemma for_ok_inv l body s s' i :
  Py.for_ l body s = Ok s' → i ∈ l → ∃ s1 s2, body i s1 = Ok s2.
Proof.
  revert s. induction l as [|i0 l IH]; intros s Hfor Hi.
  - by apply elem_of_nil in Hi.
  - cbn in Hfor. destruct (body i0 s) as [s1|e] eqn:Hb; [|done].
    apply elem_of_cons in Hi as [->|Hi]; eauto.
Qed.
End loops.

Lemma bind_ok_inv {A B} (m : res A) (f : A → res B) b :
  m ≫= f = Ok b → ∃ a, m = Ok a ∧ f a = Ok b.
Proof. destruct m as [a|e]; [eauto|done]. Qed.

Lemma getitem_ok {A} (l : list A) i x : l !! i = Some x → Py.getitem l i = Ok x.
Proof. unfold Py.getitem. by intros ->. Qed.

Lemma getitem_ok_inv {A} (l : list A) i x : Py.getitem l i = Ok x → l !! i = Some x.
Proof. unfold Py.getitem. destruct (l !! i); naive_solver. Qed.

Lemma getitem_raise {A} (l : list A) i e : Py.getitem l i = Raise e → e = IndexError.
Proof. unfold Py.getitem. destruct (l !! i); naive_solver. Qed.

(** The loop shared by the three check functions. *)
Lemma missing_loop_from (vals : list Z) (l : list nat) (acc : list Z) :
  foldl (λ missing i,
           if negb (Py.contains (Z.of_nat i + 1) vals)
           then missing ++ [Z.of_nat i + 1] else missing) acc l
  = acc ++ filter (λ v, v ∉ vals) ((λ i, Z.of_nat i + 1) <$> l).
Proof.
  revert acc. induction l as [|i l IH]; intros acc.
  - cbn. by rewrite app_nil_r.
  - rewrite fmap_cons, filter_cons. cbn [foldl]. rewrite IH. unfold Py.contains.
    destruct (decide (Z.of_nat i + 1 ∉ vals)) as [Hv|Hv].
    + rewrite bool_decide_eq_false_2 by done. cbn. by rewrite <-app_assoc.
    + rewrite bool_decide_eq_true_2; [done|]. by apply dec_stable.
Qed.

Lemma missing_loop (vals : list Z) :
  foldl (λ missing i,
           if negb (Py.contains (Z.of_nat i + 1) vals)
           then missing ++ [Z.of_nat i + 1] else missing) [] (Py.range 9)
  = missing_from vals.
Proof. by rewrite missing_loop_from. Qed.

Lemma missing_for (vals : list Z) :
  Py.for_ (Py.range 9) (λ i missing,
    Ok (if negb (Py.contains (Z.of_nat i + 1) vals)
        then missing ++ [Z.of_nat i + 1] else missing)) []
  = Ok (missing_from vals).
Proof.
  rewrite (for_ok _ _ (λ i missing,
    if negb (Py.contains (Z.of_nat i + 1) vals)
    then missing ++ [Z.of_nat i + 1] else missing)) by done.
  by rewrite missing_loop.
Qed.

Lemma elem_of_missing_from vals v :
  v ∈ missing_from vals ↔ (1 ≤ v ≤ 9) ∧ v ∉ vals.
Proof.
  unfold missing_from. rewrite list_elem_of_filter. unfold digits.
  rewrite !elem_of_cons, elem_of_nil. intuition lia.
Qed.

Lemma NoDup_missing_from vals : NoDup (missing_from vals).
Proof.
  apply NoDup_filter. apply (bool_decide_unpack _). by vm_compute.
Qed.

(** ** The check functions *)

Lemma checkrow_ok g r :
  (r < length g)%nat → checkrow r g = Ok (missing_from (row_vals g r)).
Proof.
  intros Hr. apply lookup_lt_is_Some in Hr as [row Hrow].
  unfold checkrow, row_vals. rewrite Hrow. cbn [default].
  erewrite for_ok; [by rewrite missing_loop|].
  intros i s _. by rewrite (getitem_ok _ _ _ Hrow).
Qed.

Lemma checkrow_ok_inv g r m : checkrow r g = Ok m → (r < length g)%nat.
Proof.
  intros H. eapply (for_ok_inv _ _ _ _ 0%nat) in H as (s1 & s2 & H); [|by left].
  apply bind_ok_inv in H as (row & Hrow%getitem_ok_inv & _).
  by eapply lookup_lt_Some.
Qed.

(** The list comprehension [[row[c] for row in puzzle]]. *)
Lemma column_ok g c :
  Forall (λ row : list Z, c < length row)%nat g →
  mapM (λ row : list Z, Py.getitem row c) g = Ok (col_vals g c).
Proof.
  unfold col_vals. induction 1 as [|row g Hrow _ IH]; [done|].
  apply lookup_lt_is_Some in Hrow as [v Hv].
  cbn. rewrite (getitem_ok _ _ _ Hv). cbn. rewrite IH. cbn. by rewrite Hv.
Qed.

Lemma column_ok_inv g c col :
  mapM (λ row : list Z, Py.getitem row c) g = Ok col →
  Forall (λ row : list Z, c < length row)%nat g.
Proof.
  revert col. induction g as [|row g IH]; intros col H; [by constructor|].
  cbn in H. apply bind_ok_inv in H as (v & Hv%getitem_ok_inv & H).
  apply bind_ok_inv in H as (col' & Hcol' & _).
  constructor; [by eapply lookup_lt_Some | by eapply IH].
Qed.

Lemma checkcol_ok g c :
  Forall (λ row : list Z, c < length row)%nat g →
  checkcol c g = Ok (missing_from (col_vals g c)).
Proof.
  intros Hc. unfold checkcol.
  erewrite for_ok; [by rewrite missing_loop|].
  intros i s _. by rewrite (column_ok _ _ Hc).
Qed.

Lemma checkcol_ok_inv g c m :
  checkcol c g = Ok m → Forall (λ row : list Z, c < length row)%nat g.
Proof.
  intros H. eapply (for_ok_inv _ _ _ _ 0%nat) in H as (s1 & s2 & H); [|by left].
  apply bind_ok_inv in H as (col & Hcol & _). by eapply column_ok_inv.
Qed.

Lemma checkbox_ok g n :
  (n / 3 * 3 + 2 < length g)%nat →
  checkbox n g = Ok (missing_from (box_vals g n)).
Proof.
  intros Hn. unfold checkbox.
  rewrite (for_ok _ _ (λ j box,
    box ++ Py.slice (row_vals g (n / 3 * 3 + j)) (3 * (n mod 3)) ((n mod 3 + 1) * 3))).
  - cbn [mbind res_bind]. rewrite missing_for.
    cbn [foldl Py.range seq app]. unfold box_vals. by rewrite <-app_assoc.
  - intros j box Hj. unfold row_vals.
    destruct (lookup_lt_is_Some_2 g (n / 3 * 3 + j)) as [row Hrow].
    { apply elem_of_seq in Hj. lia. }
    by rewrite (getitem_ok _ _ _ Hrow), Hrow.
Qed.

Lemma checkbox_ok_inv g n m : checkbox n g = Ok m → (n / 3 * 3 + 2 < length g)%nat.
Proof.
  intros H. apply bind_ok_inv in H as (box & H & _).
  eapply (for_ok_inv _ _ _ _ 2%nat) in H as (s1 & s2 & H); [|apply elem_of_seq; lia].
  apply bind_ok_inv in H as (row & Hrow%getitem_ok_inv & _).
  by eapply lookup_lt_Some.
Qed.

(** ** One sweep *)

Lemma nine_by_nine_indexable g : nine_by_nine g → indexable g.
Proof.
  intros [Hlen Hrows]. split; [lia|].
  eapply Forall_impl; [done|]. cbn. lia.
Qed.

Lemma indexable_col g c :
  indexable g → (c < 9)%nat → Forall (λ row : list Z, c < length row)%nat g.
Proof. intros [_ Hrows] Hc. eapply Forall_impl; [done|]. cbn. lia. Qed.

Lemma fill_tables_ok g : indexable g → fill_tables g = Ok (tables_of g).
Proof.
  intros Hg. unfold fill_tables.
  rewrite (for_ok _ _ (λ i t,
    Tables (missingrow t ++ [missing_from (row_vals g i)])
           (missingcol t ++ [missing_from (col_vals g i)])
           (missingbox t ++ [missing_from (box_vals g i)]))); [done|].
  intros i t Hi%elem_of_seq.
  rewrite checkrow_ok by (destruct Hg; lia). cbn [mbind res_bind].
  rewrite checkcol_ok by (apply indexable_col; [done|lia]). cbn [mbind res_bind].
  rewrite checkbox_ok; [done|]. destruct Hg as [Hlen _].
  assert (i / 3 < 3)%nat by (apply Nat.Div0.div_lt_upper_bound; lia). lia.
Qed.

Lemma fill_tables_ok_inv g t : fill_tables g = Ok t → indexable g.
Proof.
  intros H. eapply (for_ok_inv _ _ _ _ 8%nat) in H as (s1 & s2 & H); [|apply elem_of_seq; lia].
  apply bind_ok_inv in H as (mr & Hmr%checkrow_ok_inv & H).
  apply bind_ok_inv in H as (mc & Hmc%checkcol_ok_inv & _).
  split; [lia|]. eapply Forall_impl; [done|]. cbn. lia.
Qed.

Lemma cell_lookup g i j row v :
  g !! i = Some row → row !! j = Some v → cell g i j = v.
Proof. unfold cell. intros -> Hv. cbn. by rewrite Hv. Qed.

Lemma indexable_lookup g i j :
  indexable g → (i < 9)%nat → (j < 9)%nat →
  ∃ row, g !! i = Some row ∧ row !! j = Some (cell g i j).
Proof.
  intros [Hlen Hrows] Hi Hj.
  destruct (lookup_lt_is_Some_2 g i) as [row Hrow]; [lia|].
  pose proof (Forall_lookup_1 _ _ _ _ Hrows Hrow) as Hlen'. cbn in Hlen'.
  destruct (lookup_lt_is_Some_2 row j) as [v Hv]; [lia|].
  exists row. by rewrite (cell_lookup _ _ _ _ _ Hrow Hv).
Qed.

Lemma box_index_lt i j : (i < 9)%nat → (j < 9)%nat → (box_index i j < 9)%nat.
Proof.
  intros Hi Hj. unfold box_index.
  assert (i / 3 < 3)%nat by (apply Nat.Div0.div_lt_upper_bound; lia).
  assert (j / 3 < 3)%nat by (apply Nat.Div0.div_lt_upper_bound; lia). lia.
Qed.

Lemma tables_lookup (f : nat → list Z) i :
  (i < 9)%nat → Py.getitem (f <$> Py.range 9) i = Ok (f i).
Proof.
  intros Hi. apply getitem_ok. unfold Py.range.
  by rewrite list_lookup_fmap, lookup_seq_lt.
Qed.

(** The body of the scan appends a value that depends on the grid and the
    cell only. *)
Lemma scan_cell_ok g i j st :
  indexable g → (i < 9)%nat → (j < 9)%nat →
  scan_cell g (tables_of g) i j st
  = Ok (Scan (finished st && negb (bool_decide (cell g i j = 0)))
             (solution st ++ [sweep_cell g i j])).
Proof.
  intros Hg Hi Hj. destruct (indexable_lookup g i j) as (row & Hrow & Hv); [done..|].
  unfold scan_cell, sweep_cell.
  rewrite (getitem_ok _ _ _ Hrow). cbn [mbind res_bind].
  rewrite (getitem_ok _ _ _ Hv). cbn [mbind res_bind].
  case_bool_decide as Hzero; [|by rewrite andb_true_r].
  cbn [tables_of missingrow missingcol missingbox].
  rewrite !tables_lookup by (done || by apply box_index_lt).
  cbn [mbind res_bind]. rewrite andb_false_r.
  fold (box_index i j). fold (candidates g i j). unfold pick.
  destruct (elements (candidates g i j)) as [|x [|y tmp]]; done.
Qed.

(** A loop that clears a flag and appends to a list. *)
Lemma foldl_scan {I} (p : I → bool) (f : I → list Z) (l : list I) st :
  foldl (λ st i, Scan (finished st && p i) (solution st ++ f i)) st l
  = Scan (finished st && forallb p l) (solution st ++ concat (f <$> l)).
Proof.
  revert st. induction l as [|i l IH]; intros st.
  - cbn. rewrite andb_true_r, app_nil_r. by destruct st.
  - cbn [foldl]. rewrite IH. cbn. by rewrite <-andb_assoc, <-app_assoc.
Qed.

Lemma concat_singletons {I} (h : I → Z) (l : list I) :
  concat ((λ j, [h j]) <$> l) = h <$> l.
Proof. induction l as [|j l IH]; [done|]. cbn. by rewrite IH. Qed.

Lemma scan_ok g :
  indexable g → scan g (tables_of g) = Ok (Scan (completeb g) (concat (sweep_grid g))).
Proof.
  intros Hg. unfold scan.
  rewrite (for_ok _ _ (λ i st,
    Scan (finished st && forallb (λ j, negb (bool_decide (cell g i j = 0))) (Py.range 9))
         (solution st ++ ((λ j, sweep_cell g i j) <$> Py.range 9)))).
  - by rewrite foldl_scan.
  - intros i st Hi%elem_of_seq.
    rewrite (for_ok _ _ (λ j st,
      Scan (finished st && negb (bool_decide (cell g i j = 0)))
           (solution st ++ [sweep_cell g i j]))).
    + by rewrite foldl_scan, concat_singletons.
    + intros j st' Hj%elem_of_seq. apply scan_cell_ok; [done|lia..].
Qed.

(** Cutting the flat list of 81 values back into nine rows. *)
Lemma rows_of_solution (f : nat → nat → Z) :
  Py.for_ (Py.range 9) (λ i solution1,
    Ok (solution1 ++
        [Py.slice (concat ((λ i, f i <$> Py.range 9) <$> Py.range 9))
                  (9 * i) (9 * i + 9)])) []
  = Ok ((λ i, f i <$> Py.range 9) <$> Py.range 9).
Proof. reflexivity. Qed.

(** [sud] on a grid it can index: the key and the value of its result. *)
Lemma sud_ok g : indexable g → sud g = Ok (completeb g, sweep_grid g).
Proof.
  intros Hg. unfold sud.
  rewrite fill_tables_ok by done. cbn [mbind res_bind].
  rewrite scan_ok by done. cbn [mbind res_bind solution finished].
  unfold sweep_grid at 1. by rewrite rows_of_solution.
Qed.

(** [sud] raises on every other grid, and what it raises is an [IndexError]. *)
Lemma sud_ok_inv g done : sud g = Ok done → indexable g.
Proof. intros (t & Ht & _)%bind_ok_inv. by eapply fill_tables_ok_inv. Qed.

Lemma sud_inv g fin g' :
  sud g = Ok (fin, g') → indexable g ∧ fin = completeb g ∧ g' = sweep_grid g.
Proof.
  intros H. pose proof (sud_ok_inv _ _ H) as Hg.
  rewrite sud_ok in H by done. by simplify_eq.
Qed.

Lemma for_raise {S I} (l : list I) (body : I → S → res S) s e e0 :
  (∀ i s e', body i s = Raise e' → e' = e0) →
  Py.for_ l body s = Raise e → e = e0.
Proof.
  intros Hbody. revert s. induction l as [|i l IH]; intros s H; [done|].
  cbn in H. destruct (body i s) as [s'|e'] eqn:Hb; cbn in H; [eauto|].
  simplify_eq. eauto.
Qed.

Lemma mapM_getitem_raise (g : grid) c e :
  mapM (λ row : list Z, Py.getitem row c) g = Raise e → e = IndexError.
Proof.
  induction g as [|row g IH]; [done|]. cbn.
  destruct (Py.getitem row c) as [v|e'] eqn:Hv; cbn.
  - destruct (mapM _ g) as [col|e'']; cbn; [done|]. intros; simplify_eq. by apply IH.
  - intros; simplify_eq. by eapply getitem_raise.
Qed.

Lemma bind_raise_inv {A B} (m : res A) (f : A → res B) e :
  m ≫= f = Raise e → m = Raise e ∨ ∃ a, m = Ok a ∧ f a = Raise e.
Proof. destruct m as [a|e']; cbn; [eauto|]. intros; simplify_eq. by left. Qed.

Lemma checkrow_raise g r e : checkrow r g = Raise e → e = IndexError.
Proof.
  apply for_raise. intros i s e' [H|(row & _ & H)]%bind_raise_inv; [|done].
  by eapply getitem_raise.
Qed.

Lemma checkcol_raise g c e : checkcol c g = Raise e → e = IndexError.
Proof.
  apply for_raise. intros i s e' [H|(col & _ & H)]%bind_raise_inv; [|done].
  by eapply mapM_getitem_raise.
Qed.

Lemma checkbox_raise g n e : checkbox n g = Raise e → e = IndexError.
Proof.
  intros [H|(box & _ & H)]%bind_raise_inv; revert H; apply for_raise.
  - intros j s e' [H|(row & _ & H)]%bind_raise_inv; [|done].
    by eapply getitem_raise.
  - done.
Qed.

Lemma sud_raise g e : sud g = Raise e → e = IndexError.
Proof.
  unfold sud. destruct (fill_tables g) as [t|e'] eqn:Ht; cbn [mbind res_bind].
  - pose proof (fill_tables_ok_inv _ _ Ht) as Hg.
    rewrite fill_tables_ok in Ht by done. simplify_eq.
    rewrite scan_ok by done. cbn [mbind res_bind solution finished].
    unfold sweep_grid at 1. by rewrite rows_of_solution.
  - intros; simplify_eq. revert Ht. apply for_raise. clear.
    intros i t e [H|(mr & _ & [H|(mc & _ & [H|(mb & _ & H)]%bind_raise_inv)]%bind_raise_inv)]%bind_raise_inv.
    + by eapply checkrow_raise.
    + by eapply checkcol_raise.
    + by eapply checkbox_raise.
    + done.
Qed.

(** [sud] never raises on a grid it can index, and raises [IndexError] on
    every other one. *)
Lemma sud_not_indexable g : ¬ indexable g → sud g = Raise IndexError.
Proof.
  intros Hg. destruct (sud g) as [done|e] eqn:H.
  - by apply sud_ok_inv in H.
  - by apply sud_raise in H as ->.
Qed.

(** ** The grid a sweep returns *)

Lemma sweep_grid_nine_by_nine g : nine_by_nine (sweep_grid g).
Proof.
  split; [done|]. unfold sweep_grid. apply Forall_fmap, Forall_forall. done.
Qed.

Lemma cell_sweep_grid g i j :
  (i < 9)%nat → (j < 9)%nat → cell (sweep_grid g) i j = sweep_cell g i j.
Proof.
  intros Hi Hj.
  apply cell_lookup with ((λ j, sweep_cell g i j) <$> Py.range 9);
    unfold sweep_grid, Py.range; by rewrite list_lookup_fmap, lookup_seq_lt.
Qed.

Lemma cell_outside g i j :
  nine_by_nine g → ¬ (i < 9 ∧ j < 9)%nat → cell g i j = 0.
Proof.
  intros [Hlen Hrows] Hij. unfold cell.
  destruct (g !! i) as [row|] eqn:Hrow; [|done]. cbn.
  pose proof (lookup_lt_Some _ _ _ Hrow).
  pose proof (Forall_lookup_1 _ _ _ _ Hrows Hrow) as Hlen'. cbn in Hlen'.
  rewrite lookup_ge_None_2; [done|lia].
Qed.

(** A nine-by-nine grid is the table of its cells. *)
Lemma nine_by_nine_cells g :
  nine_by_nine g → g = (λ i, (λ j, cell g i j) <$> Py.range 9) <$> Py.range 9.
Proof.
  intros Hg. pose proof Hg as [Hlen Hrows].
  apply list_eq_same_length with 9%nat; [done|done|].
  intros i row row' Hi Hrow Hrow'. unfold Py.range in Hrow'.
  rewrite list_lookup_fmap, lookup_seq_lt in Hrow' by done.
  apply (inj Some) in Hrow' as <-.
  pose proof (Forall_lookup_1 _ _ _ _ Hrows Hrow) as Hlen'. cbn in Hlen'.
  apply list_eq_same_length with 9%nat; [done|done|].
  intros j v v' Hj Hv Hv'. unfold Py.range in Hv'.
  rewrite list_lookup_fmap, lookup_seq_lt in Hv' by done.
  apply (inj Some) in Hv' as <-. symmetry. exact (cell_lookup _ _ _ _ _ Hrow Hv).
Qed.

Lemma nine_by_nine_ext g1 g2 :
  nine_by_nine g1 → nine_by_nine g2 →
  (∀ i j, (i < 9)%nat → (j < 9)%nat → cell g1 i j = cell g2 i j) → g1 = g2.
Proof.
  intros H1 H2 Hcells.
  rewrite (nine_by_nine_cells g1), (nine_by_nine_cells g2) by done.
  unfold Py.range.
  apply list_fmap_ext. intros ? i [-> ?]%lookup_seq.
  apply list_fmap_ext. intros ? j [-> ?]%lookup_seq. by apply Hcells.
Qed.

Lemma completeb_complete g : completeb g = true ↔ complete g.
Proof.
  unfold completeb, complete. rewrite forallb_forall. split.
  - intros H i j Hi Hj. specialize (H i). rewrite forallb_forall in H.
    assert (negb (bool_decide (cell g i j = 0)) = true) as Hc.
    { apply H; apply in_seq; lia. }
    apply negb_true_iff, bool_decide_eq_false in Hc. done.
  - intros H i Hi%in_seq. apply forallb_forall. intros j Hj%in_seq.
    apply negb_true_iff, bool_decide_eq_false. apply H; lia.
Qed.

(** ** Candidates and the value a sweep gives a cell *)

Lemma elem_of_candidates g i j v :
  v ∈ candidates g i j ↔
  (1 ≤ v ≤ 9) ∧ (v ∉ row_vals g i) ∧ (v ∉ col_vals g j) ∧
  (v ∉ box_vals g (box_index i j)).
Proof.
  unfold candidates, Py.set.
  rewrite !elem_of_intersection, !elem_of_list_to_set, !elem_of_missing_from. tauto.
Qed.

Lemma pick_singleton v : pick {[v]} = v.
Proof. unfold pick. by rewrite elements_singleton. Qed.

Lemma pick_size_1 cand : size cand = 1%nat → cand = {[pick cand]}.
Proof.
  intros (x & Hx)%size_1_elem_of. apply leibniz_equiv in Hx as ->.
  by rewrite pick_singleton.
Qed.

Lemma pick_size_other cand : size cand ≠ 1%nat → pick cand = 0.
Proof.
  unfold size, set_size, pick. cbn.
  by destruct (elements cand) as [|x [|y tmp]].
Qed.

Lemma pick_candidates_nonzero g i j :
  pick (candidates g i j) ≠ 0 ↔ size (candidates g i j) = 1%nat.
Proof.
  split.
  - intros Hp. destruct (decide (size (candidates g i j) = 1%nat)) as [|Hs]; [done|].
    by apply pick_size_other in Hs.
  - intros Hs. assert (pick (candidates g i j) ∈ candidates g i j) as Hin.
    { rewrite (pick_size_1 _ Hs) at 2. by apply elem_of_singleton. }
    apply elem_of_candidates in Hin. lia.
Qed.

Lemma sweep_cell_clue g i j : cell g i j ≠ 0 → sweep_cell g i j = cell g i j.
Proof. intros H. unfold sweep_cell. by rewrite bool_decide_eq_false_2. Qed.

Lemma sweep_cell_empty g i j :
  cell g i j = 0 → sweep_cell g i j = pick (candidates g i j).
Proof. intros H. unfold sweep_cell. by rewrite bool_decide_eq_true_2. Qed.

Lemma sweep_cell_assigned g i j :
  cell g i j = 0 → (sweep_cell g i j ≠ 0 ↔ assigned g i j).
Proof.
  intros H. rewrite sweep_cell_empty, pick_candidates_nonzero by done.
  unfold assigned. tauto.
Qed.

(** The tables are filled by the three check functions. *)
Lemma candidates_checks g i j :
  indexable g → (i < 9)%nat → (j < 9)%nat →
  ∃ mr mc mb,
    checkrow i g = Ok mr ∧ checkcol j g = Ok mc ∧
    checkbox ((i / 3) * 3 + j / 3) g = Ok mb ∧
    candidates g i j = (Py.set mr ∩ Py.set mc) ∩ Py.set mb.
Proof.
  intros Hg Hi Hj. eexists _, _, _. split_and!.
  - apply checkrow_ok. destruct Hg. lia.
  - by apply checkcol_ok, indexable_col.
  - apply checkbox_ok. pose proof (box_index_lt i j Hi Hj) as Hb.
    unfold box_index in Hb. destruct Hg.
    assert (((i / 3) * 3 + j / 3) / 3 < 3)%nat
      by (apply Nat.Div0.div_lt_upper_bound; lia). lia.
  - done.
Qed.

(** ** A sweep fills, and only fills *)

Lemma keeps_clues_sweep g : nine_by_nine g → keeps_clues g (sweep_grid g).
Proof.
  intros Hg i j Hc. destruct (decide (i < 9 ∧ j < 9)%nat) as [[Hi Hj]|Hij].
  - by rewrite cell_sweep_grid, sweep_cell_clue.
  - by rewrite cell_outside in Hc.
Qed.

Lemma keeps_clues_trans g1 g2 g3 :
  keeps_clues g1 g2 → keeps_clues g2 g3 → keeps_clues g1 g3.
Proof.
  intros H12 H23 i j Hc. rewrite <-(H12 i j Hc). apply H23. by rewrite H12.
Qed.

Lemma sweep_grid_complete g : nine_by_nine g → complete g → sweep_grid g = g.
Proof.
  intros Hg Hc. apply nine_by_nine_ext; [apply sweep_grid_nine_by_nine|done|].
  intros i j Hi Hj. rewrite cell_sweep_grid by done. apply sweep_cell_clue. by apply Hc.
Qed.

Lemma count_empty_table (f h : nat → nat → Z) (rows cols : list nat) :
  (∀ i j, i ∈ rows → j ∈ cols → f i j = 0 → h i j = 0) →
  (count_empty ((λ i, f i <$> cols) <$> rows)
   ≤ count_empty ((λ i, h i <$> cols) <$> rows))%nat.
Proof.
  unfold count_empty. induction rows as [|i rows IH]; intros Hfh; [done|].
  cbn [fmap list_fmap concat]. rewrite !filter_app, !length_app.
  apply Nat.add_le_mono.
  - clear IH. induction cols as [|j cols IH]; [done|]. cbn [fmap list_fmap].
    rewrite !filter_cons.
    assert (∀ i' j', i' ∈ i :: rows → j' ∈ cols → f i' j' = 0 → h i' j' = 0) as Hle.
    { intros i' j' Hi' Hj'. apply Hfh; [done|by right]. }
    apply IH in Hle.
    destruct (decide (f i j = 0)) as [Hf|Hf].
    + rewrite decide_True by (apply Hfh; [by left..|done]). cbn. lia.
    + destruct (decide (h i j = 0)); cbn; lia.
  - apply IH. intros i' j' Hi' Hj'. apply Hfh; [by right|done].
Qed.

Lemma count_empty_sweep g :
  nine_by_nine g → (count_empty (sweep_grid g) ≤ count_empty g)%nat.
Proof.
  intros Hg. rewrite (nine_by_nine_cells g) at 2 by done.
  apply count_empty_table. intros i j Hi%elem_of_seq Hj%elem_of_seq Hs.
  destruct (decide (cell g i j = 0)) as [|Hc]; [done|].
  by rewrite sweep_cell_clue in Hs.
Qed.

(** ** The loop of the driver *)

Lemma sudoku_loop_exit fuel g : sudoku_loop fuel (true, g) = Solved g.
Proof. by destruct fuel. Qed.

Lemma sudoku_loop_turn fuel g :
  sudoku_loop (S fuel) (false, g)
  = match sud g with
    | Ok done' => sudoku_loop fuel done'
    | Raise e => Crashed e
    end.
Proof. done. Qed.

Lemma sudoku_from_loop fuel g :
  sudoku_from fuel g = sudoku_loop (S fuel) (false, g).
Proof. done. Qed.

(** A sweep that returns the grid it was handed, keyed [False], is repeated
    without end. *)
Lemma loop_stalls g :
  sud g = Ok (false, g) → ∀ fuel, sudoku_loop fuel (false, g) = OutOfFuel.
Proof.
  intros Hsud fuel. induction fuel as [|fuel IH]; [done|].
  by rewrite sudoku_loop_turn, Hsud.
Qed.

Lemma loop_more_fuel fuel fuel' done out :
  (fuel ≤ fuel')%nat → sudoku_loop fuel done = Solved out →
  sudoku_loop fuel' done = Solved out.
Proof.
  revert fuel' done. induction fuel as [|fuel IH]; intros fuel' [fin g] Hle H.
  - destruct fin; [|done]. by rewrite sudoku_loop_exit in *.
  - destruct fin; [by rewrite sudoku_loop_exit in *|].
    destruct fuel' as [|fuel']; [lia|]. rewrite sudoku_loop_turn in *.
    destruct (sud g) as [done'|e]; [|done]. apply IH; [lia|done].
Qed.

(** The fuelled loop and the relation describe the same runs. *)
Lemma loop_runs_fuel done swept out :
  loop_runs done swept out → sudoku_loop (length swept) done = Solved out.
Proof.
  induction 1 as [g|g done' swept out Hsud _ IH]; [done|].
  cbn [length]. by rewrite sudoku_loop_turn, Hsud.
Qed.

Lemma loop_fuel_runs fuel done out :
  sudoku_loop fuel done = Solved out →
  ∃ swept, loop_runs done swept out ∧ (length swept ≤ fuel)%nat.
Proof.
  revert done. induction fuel as [|fuel IH]; intros [fin g] H.
  - destruct fin; [|done]. rewrite sudoku_loop_exit in H. simplify_eq.
    exists []. split; [constructor|done].
  - destruct fin.
    + rewrite sudoku_loop_exit in H. simplify_eq.
      exists []. split; [constructor|cbn; lia].
    + rewrite sudoku_loop_turn in H. destruct (sud g) as [done'|e] eqn:Hsud; [|done].
      apply IH in H as (swept & Hruns & Hlen).
      exists (g :: swept). split; [by econstructor|cbn; lia].
Qed.

(** The grids the loop sweeps: all but the last have an empty cell, the last
    has none and [sud] keys it [True]. *)
Lemma loop_runs_last g swept out :
  loop_runs (false, g) swept out →
  ∃ before last,
    swept = before ++ [last] ∧
    Forall (λ g, ¬ complete g) before ∧
    complete last ∧ sud last = Ok (true, out).
Proof.
  intros H. remember (false, g) as done eqn:Hdone. revert g Hdone.
  induction H as [g0|g0 [fin g1] swept out Hsud Hruns IH]; intros g Hdone; [done|].
  simplify_eq. pose proof (sud_inv _ _ _ Hsud) as (Hg & -> & ->).
  destruct (completeb g) eqn:Hc.
  - inversion Hruns; subst. exists [], g. split_and!; [done|done| |done].
    by apply completeb_complete.
  - destruct (IH _ eq_refl) as (before & last & -> & Hbefore & Hlast & Hsudl).
    exists (g :: before), last. split_and!; [done| |done|done].
    constructor; [|done]. rewrite <-completeb_complete. congruence.
Qed.

Lemma sweeps_sweep_grid k g :
  indexable g → sweeps (S k) g = sweeps k (sweep_grid g).
Proof. intros Hg. cbn [sweeps]. by rewrite sud_ok. Qed.

(** When some number of sweeps reaches a complete grid the loop ends. *)
Lemma loop_reaches k : ∀ g gk,
  nine_by_nine g → sweeps k g = Ok gk → complete gk →
  ∃ fuel out,
    sudoku_loop (S fuel) (false, g) = Solved out ∧ complete out ∧ keeps_clues g out.
Proof.
  assert (∀ g, nine_by_nine g → complete g →
    sudoku_loop 1 (false, g) = Solved g) as Hdone.
  { intros g Hg Hc. rewrite sudoku_loop_turn, sud_ok by by apply nine_by_nine_indexable.
    rewrite (proj2 (completeb_complete g) Hc).
    by rewrite sudoku_loop_exit, sweep_grid_complete. }
  induction k as [|k IH]; intros g gk Hg Hk Hc.
  - cbn in Hk. simplify_eq. exists 0%nat, gk. split_and!; [by apply Hdone|done|by intros ??].
  - destruct (completeb g) eqn:Hcg.
    + apply completeb_complete in Hcg.
      exists 0%nat, g. split_and!; [by apply Hdone|done|by intros ??].
    + rewrite sweeps_sweep_grid in Hk by by apply nine_by_nine_indexable.
      destruct (IH _ _ (sweep_grid_nine_by_nine g) Hk Hc) as (fuel & out & Hl & Hco & Hkc).
      exists (S fuel), out. split_and!; [|done|].
      * rewrite sudoku_loop_turn, sud_ok by by apply nine_by_nine_indexable.
        by rewrite Hcg.
      * eapply keeps_clues_trans; [by apply keeps_clues_sweep|done].
Qed.

Lemma loop_reached fuel : ∀ g out,
  sudoku_loop fuel (false, g) = Solved out →
  ∃ k gk, sweeps k g = Ok gk ∧ complete gk.
Proof.
  induction fuel as [|fuel IH]; intros g out H; [done|].
  rewrite sudoku_loop_turn in H. destruct (sud g) as [[fin g1]|e] eqn:Hsud; [|done].
  pose proof (sud_inv _ _ _ Hsud) as (Hg & -> & ->).
  destruct (completeb g) eqn:Hc.
  - exists 0%nat, g. split; [done|]. by apply completeb_complete.
  - apply IH in H as (k & gk & Hk & Hgk). exists (S k), gk.
    by rewrite sweeps_sweep_grid.
Qed.

(** ** The script on small inputs *)

Example checkrow_sample : checkrow 0 sample = Ok [1; 3; 6].
Proof. reflexivity. Qed.

Example checkcol_sample : checkcol 0 sample = Ok [2; 3; 4; 5; 6; 7; 9].
Proof. reflexivity. Qed.

Example checkbox_sample : checkbox 4 sample = Ok [2; 3; 6; 7].
Proof. reflexivity. Qed.

Example candidates_sample : elements (candidates sample 0 0) = [3; 6].
Proof. by vm_compute. Qed.

Example sud_sample :
  sud sample
  = Ok (false,
        [[0;2;0;9;4;5;0;7;8];
         [0;0;9;7;6;2;3;0;0];
         [0;7;0;1;0;3;2;0;5];
         [0;1;0;8;0;9;4;5;0];
         [0;0;0;0;5;0;0;0;0];
         [0;0;5;4;0;1;0;6;0];
         [1;0;7;6;9;8;0;2;0];
         [0;0;4;3;2;0;1;0;0];
         [8;6;2;5;1;4;0;3;0]]).
Proof. by vm_compute. Qed.

(** The grid of the docstring takes ten sweeps, the last one over the
    completed grid. *)
Example sudoku_sample :
  sudoku_from 8 sample = OutOfFuel ∧ sudoku_from 9 sample = Solved sample_solved.
Proof. split; by vm_compute. Qed.

Example sample_solved_is_solution : is_solution sample_solved.
Proof.
  split; [split; [reflexivity|repeat constructor]|].
  intros i Hi. do 9 (destruct i as [|i]; [by vm_compute|]). lia.
Qed.

Example sudoku_missing_line : sudoku 3 ["12"%string] = Crashed EOFError.
Proof. reflexivity. Qed.

Example sudoku_letter : sudoku 3 ["12"; "1x"]%string = Crashed ValueError.
Proof. reflexivity. Qed.

Example sudoku_short_rows : sudoku 3 (replicate 9 "12345678"%string) = Crashed IndexError.
Proof. by vm_compute. Qed.

(** Rows of ten digits are accepted; the sweep keeps the first nine. *)
Example sudoku_long_rows :
  sudoku 3 (replicate 9 "1234567890"%string)
  = Solved (replicate 9 [1; 2; 3; 4; 5; 6; 7; 8; 9]).
Proof. by vm_compute. Qed.

(** * The properties of the specification *)

Lemma nine_by_nine_sample : nine_by_nine sample.
Proof. split; [reflexivity|repeat constructor]. Defined.

Lemma indexable_sample : indexable sample.
Proof. split; [cbn; lia|repeat constructor; cbn; lia]. Defined.

(** ** Candidates and assignment *)

(** C5.  For an empty cell [(i, j)] the sweep intersects the set missing from
    row [i], the set missing from column [j] and the set missing from box
    [(i/3)*3 + j/3], each as the check functions compute it on the grid the
    sweep was handed; the cell is nonzero in the result exactly when that
    intersection has one element, and then holds this element. *)
Theorem sweep_assigns_single_candidate g fin g' i j :
  sud g = Ok (fin, g') → (i < 9)%nat → (j < 9)%nat → cell g i j = 0 →
  ∃ mr mc mb,
    checkrow i g = Ok mr ∧ checkcol j g = Ok mc ∧
    checkbox ((i / 3) * 3 + j / 3) g = Ok mb ∧
    let cand := (Py.set mr ∩ Py.set mc) ∩ Py.set mb in
    (cell g' i j ≠ 0 ↔ size cand = 1%nat) ∧
    (∀ v, cand = {[v]} → cell g' i j = v).
Proof.
  intros (Hg & _ & ->)%sud_inv Hi Hj Hzero.
  destruct (candidates_checks g i j Hg Hi Hj) as (mr & mc & mb & Hmr & Hmc & Hmb & Hcand).
  exists mr, mc, mb. split_and!; [done..|]. cbn zeta. rewrite <-Hcand.
  rewrite cell_sweep_grid, sweep_cell_empty by done. split.
  - apply pick_candidates_nonzero.
  - intros v ->. apply pick_singleton.
Qed.

Lemma sweep_assigns_single_candidate_witness :
  sud sample = Ok (false, sweep_grid sample) ∧ (1 < 9)%nat ∧ (3 < 9)%nat ∧
  cell sample 1 3 = 0 ∧
  ∃ mr mc mb,
    checkrow 1 sample = Ok mr ∧ checkcol 3 sample = Ok mc ∧
    checkbox ((1 / 3) * 3 + 3 / 3) sample = Ok mb ∧
    let cand := (Py.set mr ∩ Py.set mc) ∩ Py.set mb in
    (cell (sweep_grid sample) 1 3 ≠ 0 ↔ size cand = 1%nat) ∧
    (∀ v, cand = {[v]} → cell (sweep_grid sample) 1 3 = v).
Proof.
  assert (sud sample = Ok (false, sweep_grid sample)) as Hsud by (vm_compute; reflexivity).
  split_and!; [exact Hsud|lia|lia|reflexivity|].
  apply (sweep_assigns_single_candidate sample false (sweep_grid sample) 1 3 Hsud);
    [lia|lia|reflexivity].
Defined.

(** ** Boxes *)

Lemma slice_three (row : list Z) (a : nat) :
  (a + 3 ≤ length row)%nat →
  Py.slice row a (a + 3)
  = [default 0 (row !! a); default 0 (row !! (a + 1)%nat); default 0 (row !! (a + 2)%nat)].
Proof.
  intros Ha. unfold Py.slice. replace (a + 3 - a)%nat with 3%nat by lia.
  apply list_eq_same_length with 3%nat; [done|rewrite length_take, length_drop; lia|].
  intros k x y Hk. rewrite lookup_take_lt, lookup_drop by done. intros Hx Hy.
  destruct k as [|[|[|k]]]; [| | |lia];
    [replace (a + 0)%nat with a in Hx by lia|..]; cbn in Hy; rewrite Hx in Hy; by simplify_eq/=.
Qed.

Lemma box_vals_cells g n :
  indexable g → (n < 9)%nat →
  box_vals g n = (λ ij, cell g ij.1 ij.2) <$> box_cells n.
Proof.
  intros Hg Hn.
  assert (n / 3 < 3)%nat by (apply Nat.Div0.div_lt_upper_bound; lia).
  assert (n mod 3 < 3)%nat by (apply Nat.mod_upper_bound; lia).
  assert (∀ dr, (dr < 3)%nat →
    Py.slice (row_vals g (n / 3 * 3 + dr)) (3 * (n mod 3)) ((n mod 3 + 1) * 3)
    = [cell g (3 * (n / 3) + dr) (3 * (n mod 3) + 0);
       cell g (3 * (n / 3) + dr) (3 * (n mod 3) + 1);
       cell g (3 * (n / 3) + dr) (3 * (n mod 3) + 2)]) as Hslice.
  { intros dr Hdr.
    destruct (indexable_lookup g (3 * (n / 3) + dr) 0) as (row & Hrow & _); [done|lia..|].
    assert (9 ≤ length row)%nat as Hlen.
    { destruct Hg as [_ Hrows]. apply (Forall_lookup_1 _ _ _ _ Hrows Hrow). }
    unfold row_vals, cell. replace (n / 3 * 3 + dr)%nat with (3 * (n / 3) + dr)%nat by lia.
    rewrite Hrow. cbn [default from_option id mbind option_bind].
    replace ((n mod 3 + 1) * 3)%nat with (3 * (n mod 3) + 3)%nat by lia.
    rewrite slice_three by lia.
    by replace (3 * (n mod 3) + 0)%nat with (3 * (n mod 3))%nat by lia. }
  unfold box_vals. rewrite !Hslice by lia. reflexivity.
Qed.

Lemma box_index_cells n i j :
  (n < 9)%nat → (i < 9)%nat → (j < 9)%nat →
  box_index i j = n ↔ (i, j) ∈ box_cells n.
Proof.
  intros Hn Hi Hj. unfold box_cells, box_index.
  rewrite list_elem_of_bind. setoid_rewrite list_elem_of_bind.
  setoid_rewrite elem_of_seq. setoid_rewrite list_elem_of_singleton.
  assert (i / 3 < 3)%nat by (apply Nat.Div0.div_lt_upper_bound; lia).
  assert (j / 3 < 3)%nat by (apply Nat.Div0.div_lt_upper_bound; lia).
  pose proof (Nat.div_mod_eq i 3). pose proof (Nat.div_mod_eq j 3).
  pose proof (Nat.mod_upper_bound i 3). pose proof (Nat.mod_upper_bound j 3).
  split.
  - intros <-. exists (i mod 3)%nat. split; [|lia]. exists (j mod 3)%nat. split; [|lia].
    replace ((i / 3 * 3 + j / 3) / 3)%nat with (i / 3)%nat
      by (apply Nat.div_unique with (j / 3)%nat; lia).
    replace ((i / 3 * 3 + j / 3) mod 3)%nat with (j / 3)%nat
      by (apply Nat.mod_unique with (i / 3)%nat; lia).
    f_equal; lia.
  - intros (dr & (dc & Hij & Hdc) & Hdr). simplify_eq.
    assert (n / 3 < 3)%nat by (apply Nat.Div0.div_lt_upper_bound; lia).
    pose proof (Nat.div_mod_eq n 3). pose proof (Nat.mod_upper_bound n 3).
    replace ((3 * (n / 3) + dr) / 3)%nat with (n / 3)%nat
      by (apply Nat.div_unique with dr; lia).
    replace ((3 * (n mod 3) + dc) / 3)%nat with (n mod 3)%nat
      by (apply Nat.div_unique with dc; lia).
    lia.
Qed.




(** ** Staged assignments *)

(** C7.  On a grid [sud] can index, the tables are filled from the grid the
    sweep was handed before any cell is scanned; whatever the scan has
    appended so far, the body for cell [(i, j)] appends [sweep_cell g i j],
    a function of that grid alone; and the grid returned is the table of
    these values. *)
Theorem sweep_reads_only_its_input g :
  indexable g →
  ∃ t,
    fill_tables g = Ok t ∧
    (∀ i j st, (i < 9)%nat → (j < 9)%nat →
       ∃ fin', scan_cell g t i j st = Ok (Scan fin' (solution st ++ [sweep_cell g i j]))) ∧
    ∃ fin, sud g = Ok (fin, sweep_grid g).
Proof.
  intros Hg. exists (tables_of g). split_and!.
  - by apply fill_tables_ok.
  - intros i j st Hi Hj. eexists. by apply scan_cell_ok.
  - eexists. by apply sud_ok.
Qed.

Lemma sweep_reads_only_its_input_witness :
  indexable sample ∧
  ∃ t,
    fill_tables sample = Ok t ∧
    (∀ i j st, (i < 9)%nat → (j < 9)%nat →
       ∃ fin', scan_cell sample t i j st
               = Ok (Scan fin' (solution st ++ [sweep_cell sample i j]))) ∧
    ∃ fin, sud sample = Ok (fin, sweep_grid sample).
Proof.
  split; [exact indexable_sample|].
  apply (sweep_reads_only_its_input sample). exact indexable_sample.
Defined.

(** ** Monotonicity *)

(** C8.  A sweep over a nine-by-nine grid returns a nine-by-nine grid in
    which every cell that was nonzero keeps its value, so the number of
    empty cells does not grow. *)
Theorem sweep_only_fills g :
  nine_by_nine g →
  ∃ fin g',
    sud g = Ok (fin, g') ∧ nine_by_nine g' ∧
    (∀ i j, cell g i j ≠ 0 → cell g' i j = cell g i j) ∧
    (count_empty g' ≤ count_empty g)%nat.
Proof.
  intros Hg. exists (completeb g), (sweep_grid g). split_and!.
  - by apply sud_ok, nine_by_nine_indexable.
  - apply sweep_grid_nine_by_nine.
  - by apply keeps_clues_sweep.
  - by apply count_empty_sweep.
Qed.

Lemma sweep_only_fills_witness :
  nine_by_nine sample ∧
  ∃ fin g',
    sud sample = Ok (fin, g') ∧ nine_by_nine g' ∧
    (∀ i j, cell sample i j ≠ 0 → cell g' i j = cell sample i j) ∧
    (count_empty g' ≤ count_empty sample)%nat.
Proof.
  split; [exact nine_by_nine_sample|].
  apply (sweep_only_fills sample). exact nine_by_nine_sample.
Defined.

(** ** Fixed points *)

(** C9.  If no empty cell of a nine-by-nine grid has exactly one candidate,
    so that a sweep assigns nothing, the sweep returns the grid it was
    handed, and so does any number of sweeps in a row. *)
Theorem sweep_fixed_point g :
  nine_by_nine g →
  (∀ i j, (i < 9)%nat → (j < 9)%nat → ¬ assigned g i j) →
  (∃ fin, sud g = Ok (fin, g)) ∧ ∀ k, sweeps k g = Ok g.
Proof.
  intros Hg Hfix.
  assert (sweep_grid g = g) as Hsame.
  { apply nine_by_nine_ext; [apply sweep_grid_nine_by_nine|done|].
    intros i j Hi Hj. rewrite cell_sweep_grid by done.
    destruct (decide (cell g i j = 0)) as [Hz|Hz]; [|by apply sweep_cell_clue].
    rewrite Hz. destruct (decide (sweep_cell g i j = 0)) as [|Hs]; [done|].
    apply sweep_cell_assigned in Hs; [|done]. by apply Hfix in Hs. }
  assert (sud g = Ok (completeb g, g)) as Hsud.
  { rewrite sud_ok by by apply nine_by_nine_indexable. by rewrite Hsame. }
  split; [by eexists|].
  induction k as [|k IH]; [done|]. cbn [sweeps]. by rewrite Hsud.
Qed.

Lemma sweep_fixed_point_witness :
  nine_by_nine blank ∧
  (∀ i j, (i < 9)%nat → (j < 9)%nat → ¬ assigned blank i j) ∧
  (∃ fin, sud blank = Ok (fin, blank)) ∧ ∀ k, sweeps k blank = Ok blank.
Proof.
  assert (nine_by_nine blank) as Hg by (split; [reflexivity|repeat constructor]).
  assert (∀ i j, (i < 9)%nat → (j < 9)%nat → ¬ assigned blank i j) as Hfix.
  { intros i j Hi Hj [_ Hs].
    do 9 (destruct i as [|i];
          [do 9 (destruct j as [|j]; [vm_compute in Hs; discriminate|]); lia|]).
    lia. }
  split; [exact Hg|]. split; [exact Hfix|].
  exact (sweep_fixed_point blank Hg Hfix).
Defined.

(** ** The completion flag *)

Lemma sudoku_from_runs fuel g out :
  sudoku_from fuel g = Solved out → ∃ swept, sudoku_runs g (g :: swept) out ∧
    loop_runs (false, g) (g :: swept) out.
Proof.
  rewrite sudoku_from_loop. intros (swept & Hruns & _)%loop_fuel_runs.
  inversion Hruns; subst. eexists. split; [by econstructor|done].
Qed.

(** A loop that sweeps the grids [swept] needs one turn for each of them:
    with fewer it runs out of fuel, with as many or more it returns. *)
Lemma loop_runs_turns done swept out :
  loop_runs done swept out →
  ∀ fuel, sudoku_loop fuel done
          = if decide (length swept ≤ fuel)%nat then Solved out else OutOfFuel.
Proof.
  induction 1 as [g|g done' swept out Hsud _ IH]; intros fuel.
  - rewrite sudoku_loop_exit. by rewrite decide_True by (cbn; lia).
  - destruct fuel as [|fuel]; [done|].
    rewrite sudoku_loop_turn, Hsud, IH. cbn [length].
    destruct (decide (length swept ≤ fuel)%nat).
    + by rewrite decide_True by lia.
    + by rewrite decide_False by lia.
Qed.

(** C10.  The key of the result of [sud] is [True] exactly when the grid it
    was handed has no empty cell.  So a sweep that fills the last empty
    cells is still keyed [False], and the driver, handed such a grid, does
    not return without a turn of its loop and returns the completed grid
    after one.  In general, when the driver returns, the grids it swept are
    some grids with an empty cell followed by one complete grid, the sweep
    of which is the one keyed [True]; its loop takes one turn for each grid
    with an empty cell: with fewer turns the driver does not return, with
    as many or more it returns the same grid. *)
Theorem flag_reflects_input g fin g' :
  sud g = Ok (fin, g') →
  (fin = true ↔ complete g) ∧
  (¬ complete g → complete g' →
   fin = false ∧ sudoku_from 0 g = OutOfFuel ∧
   ∀ fuel, sudoku_from (S fuel) g = Solved g') ∧
  (∀ fuel out, sudoku_from fuel g = Solved out →
     ∃ before last,
       sudoku_runs g (before ++ [last]) out ∧
       Forall (λ g, ¬ complete g) before ∧
       complete last ∧ sud last = Ok (true, out) ∧
       (∀ fuel', (fuel' < length before)%nat → sudoku_from fuel' g = OutOfFuel) ∧
       (∀ fuel', (length before ≤ fuel')%nat → sudoku_from fuel' g = Solved out)).
Proof.
  intros Hsud. pose proof Hsud as (Hg & -> & ->)%sud_inv. split_and!.
  - apply completeb_complete.
  - intros Hc Hc'. rewrite <-completeb_complete in Hc.
    assert (completeb g = false) as Hfin by by destruct (completeb g).
    assert (sud (sweep_grid g) = Ok (true, sweep_grid g)) as Hlast.
    { rewrite sud_ok by apply nine_by_nine_indexable, sweep_grid_nine_by_nine.
      rewrite (proj2 (completeb_complete _) Hc').
      by rewrite sweep_grid_complete by (done || apply sweep_grid_nine_by_nine). }
    split_and!; [done|..].
    + unfold sudoku_from. by rewrite Hsud, Hfin.
    + intros fuel. unfold sudoku_from. rewrite Hsud, Hfin.
      rewrite sudoku_loop_turn, Hlast. apply sudoku_loop_exit.
  - intros fuel out (swept & Hruns & Hloop)%sudoku_from_runs.
    pose proof (loop_runs_turns _ _ _ Hloop) as Hturns.
    apply loop_runs_last in Hloop as (before & last & Heq & Hbefore & Hlast & Hsudl).
    rewrite Heq in Hturns. rewrite length_app in Hturns. cbn [length] in Hturns.
    exists before, last. rewrite <-Heq. split_and!; [done..| |].
    + intros fuel' Hlt. rewrite sudoku_from_loop, Hturns.
      by rewrite decide_False by lia.
    + intros fuel' Hle. rewrite sudoku_from_loop, Hturns.
      by rewrite decide_True by lia.
Qed.

Lemma flag_reflects_input_witness :
  sud almost = Ok (false, shifted) ∧
  (false = true ↔ complete almost) ∧
  (¬ complete almost → complete shifted →
   false = false ∧ sudoku_from 0 almost = OutOfFuel ∧
   ∀ fuel, sudoku_from (S fuel) almost = Solved shifted) ∧
  (∀ fuel out, sudoku_from fuel almost = Solved out →
     ∃ before last,
       sudoku_runs almost (before ++ [last]) out ∧
       Forall (λ g, ¬ complete g) before ∧
       complete last ∧ sud last = Ok (true, out) ∧
       (∀ fuel', (fuel' < length before)%nat → sudoku_from fuel' almost = OutOfFuel) ∧
       (∀ fuel', (length before ≤ fuel')%nat → sudoku_from fuel' almost = Solved out)).
Proof.
  assert (sud almost = Ok (false, shifted)) as Hsud by (vm_compute; reflexivity).
  split; [exact Hsud|]. exact (flag_reflects_input almost false shifted Hsud).
Defined.

(** ** Termination of the driver *)

Lemma cell_blank i j : cell blank i j = 0.
Proof.
  unfold cell, blank. destruct (replicate 9 (replicate 9 0) !! i) as [row|] eqn:Hrow; [|done].
  apply lookup_replicate in Hrow as [-> _].
  change (default 0 (replicate 9 0 !! j) = 0).
  destruct (replicate 9 0 !! j) as [v|] eqn:Hv; [|done].
  by apply lookup_replicate in Hv as [-> _].
Qed.

Lemma is_solution_shifted : is_solution shifted.
Proof.
  split; [split; [reflexivity|repeat constructor]|].
  intros i Hi. do 9 (destruct i as [|i]; [by vm_compute|]). lia.
Qed.

(** C1, as the specification states it, fails: the blank grid is solvable,
    and the driver sweeps it without end. *)
Lemma blank_solvable_never_solved :
  solvable blank ∧ ∀ fuel, sudoku_from fuel blank = OutOfFuel.
Proof.
  split.
  - exists shifted. split; [apply is_solution_shifted|].
    intros i j Hc. by rewrite cell_blank in Hc.
  - intros fuel. rewrite sudoku_from_loop. apply loop_stalls. by vm_compute.
Qed.

(** C1, amended.  For a nine-by-nine grid that some number of sweeps brings
    to a grid without empty cells, the driver ends, and the grid it returns
    has no empty cell and keeps every clue of the input. *)
Theorem solve_returns_completed_grid g k gk :
  nine_by_nine g → sweeps k g = Ok gk → complete gk →
  ∃ fuel out,
    sudoku_from fuel g = Solved out ∧ complete out ∧ keeps_clues g out.
Proof.
  intros Hg Hk Hc.
  destruct (loop_reaches k g gk Hg Hk Hc) as (fuel & out & Hloop & Hout & Hkeep).
  exists fuel, out. by rewrite sudoku_from_loop.
Qed.

Lemma complete_sample_solved : complete sample_solved.
Proof. apply completeb_complete. vm_compute. reflexivity. Defined.

Lemma solve_returns_completed_grid_witness :
  nine_by_nine sample ∧ sweeps 9 sample = Ok sample_solved ∧ complete sample_solved ∧
  ∃ fuel out,
    sudoku_from fuel sample = Solved out ∧ complete out ∧ keeps_clues sample out.
Proof.
  assert (sweeps 9 sample = Ok sample_solved) as Hk by (vm_compute; reflexivity).
  split; [exact nine_by_nine_sample|]. split; [exact Hk|].
  split; [exact complete_sample_solved|].
  exact (solve_returns_completed_grid sample 9 sample_solved
           nine_by_nine_sample Hk complete_sample_solved).
Defined.

(** C2, as the specification states it, fails: a sweep over the grid with a
    single clue assigns nothing, its result is the same grid keyed [False],
    and the loop goes on. *)
Lemma lone_clue_sweeps_forever :
  sud lone_clue = Ok (false, lone_clue) ∧
  ∀ fuel, sudoku_from fuel lone_clue = OutOfFuel.
Proof.
  assert (sud lone_clue = Ok (false, lone_clue)) as Hsud by by vm_compute.
  split; [done|]. intros fuel. rewrite sudoku_from_loop. by apply loop_stalls.
Qed.

(** C2, amended.  The loop repeats the sweep while the last result is keyed
    [False], that is while the grid last swept had an empty cell, whether or
    not that sweep assigned anything.  On a nine-by-nine grid it ends exactly
    when some number of sweeps reaches a grid without empty cells; where a
    sweep returns the grid it was handed, keyed [False], it does not end. *)
Theorem loop_ends_iff_completed g :
  nine_by_nine g →
  ((∃ fuel out, sudoku_from fuel g = Solved out) ↔
   (∃ k gk, sweeps k g = Ok gk ∧ complete gk)) ∧
  (sud g = Ok (false, g) → ∀ fuel, sudoku_from fuel g = OutOfFuel).
Proof.
  intros Hg. split; [split|].
  - intros (fuel & out & H). rewrite sudoku_from_loop in H. by eapply loop_reached.
  - intros (k & gk & Hk & Hc).
    destruct (loop_reaches k g gk Hg Hk Hc) as (fuel & out & H & _).
    exists fuel, out. by rewrite sudoku_from_loop.
  - intros Hsud fuel. rewrite sudoku_from_loop. by apply loop_stalls.
Qed.

Lemma loop_ends_iff_completed_witness :
  nine_by_nine sample ∧
  ((∃ fuel out, sudoku_from fuel sample = Solved out) ↔
   (∃ k gk, sweeps k sample = Ok gk ∧ complete gk)) ∧
  (sud sample = Ok (false, sample) → ∀ fuel, sudoku_from fuel sample = OutOfFuel).
Proof.
  split; [exact nine_by_nine_sample|].
  exact (loop_ends_iff_completed sample nine_by_nine_sample).
Defined.

(** ** Empty candidate sets *)

(** C3, as the specification states it, fails: the first cell scanned is
    empty and has an empty candidate set, and the sweep returns an ordinary
    result in which the last cell scanned has been assigned. *)
Lemma dead_end_swept_to_the_end :
  cell dead_end 0 0 = 0 ∧
  checkrow 0 dead_end = Ok [9] ∧
  checkcol 0 dead_end = Ok [2; 3; 4; 5; 6; 7; 8] ∧
  checkbox 0 dead_end = Ok [3; 4; 5; 6; 7; 8; 9] ∧
  (Py.set [9] ∩ Py.set [2; 3; 4; 5; 6; 7; 8]) ∩ Py.set [3; 4; 5; 6; 7; 8; 9] = ∅ ∧
  cell dead_end 8 8 = 0 ∧
  ∃ g', sud dead_end = Ok (false, g') ∧ cell g' 0 0 = 0 ∧ cell g' 8 8 = 9.
Proof.
  split_and!; [by vm_compute..|].
  eexists. split_and!; [by vm_compute|done|done].
Qed.

(** C3, amended.  When an empty cell of a grid [sud] can index has an empty
    candidate set, the sweep reports nothing: it returns an ordinary result
    keyed [False] in which this cell is still 0 and every cell, the later
    ones too, has the value the scan gives it. *)
Theorem empty_candidates_leave_cell_empty g i j mr mc mb :
  indexable g → (i < 9)%nat → (j < 9)%nat → cell g i j = 0 →
  checkrow i g = Ok mr → checkcol j g = Ok mc →
  checkbox ((i / 3) * 3 + j / 3) g = Ok mb →
  (Py.set mr ∩ Py.set mc) ∩ Py.set mb = ∅ →
  ∃ g',
    sud g = Ok (false, g') ∧ cell g' i j = 0 ∧
    ∀ i' j', (i' < 9)%nat → (j' < 9)%nat → cell g' i' j' = sweep_cell g i' j'.
Proof.
  intros Hg Hi Hj Hzero Hmr Hmc Hmb Hempty.
  destruct (candidates_checks g i j Hg Hi Hj)
    as (mr' & mc' & mb' & Hmr' & Hmc' & Hmb' & Hcand).
  rewrite Hmr' in Hmr. rewrite Hmc' in Hmc. rewrite Hmb' in Hmb.
  injection Hmr as ->. injection Hmc as ->. injection Hmb as ->.
  rewrite Hempty in Hcand.
  exists (sweep_grid g). split_and!.
  - rewrite sud_ok by done. do 2 f_equal.
    destruct (completeb g) eqn:Hc; [|done].
    apply completeb_complete in Hc. by destruct (Hc i j).
  - rewrite cell_sweep_grid, sweep_cell_empty, Hcand by done.
    apply pick_size_other. by rewrite size_empty.
  - intros i' j' Hi' Hj'. by apply cell_sweep_grid.
Qed.

Lemma empty_candidates_leave_cell_empty_witness :
  indexable dead_end ∧ (0 < 9)%nat ∧ (0 < 9)%nat ∧ cell dead_end 0 0 = 0 ∧
  checkrow 0 dead_end = Ok [9] ∧
  checkcol 0 dead_end = Ok [2; 3; 4; 5; 6; 7; 8] ∧
  checkbox ((0 / 3) * 3 + 0 / 3) dead_end = Ok [3; 4; 5; 6; 7; 8; 9] ∧
  (Py.set [9] ∩ Py.set [2; 3; 4; 5; 6; 7; 8]) ∩ Py.set [3; 4; 5; 6; 7; 8; 9] = ∅ ∧
  ∃ g',
    sud dead_end = Ok (false, g') ∧ cell g' 0 0 = 0 ∧
    ∀ i' j', (i' < 9)%nat → (j' < 9)%nat → cell g' i' j' = sweep_cell dead_end i' j'.
Proof.
  assert (indexable dead_end) as Hg
    by (split; [cbn; lia|repeat constructor; cbn; lia]).
  assert (checkrow 0 dead_end = Ok [9]) as Hmr by (vm_compute; reflexivity).
  assert (checkcol 0 dead_end = Ok [2; 3; 4; 5; 6; 7; 8]) as Hmc
    by (vm_compute; reflexivity).
  assert (checkbox ((0 / 3) * 3 + 0 / 3) dead_end = Ok [3; 4; 5; 6; 7; 8; 9]) as Hmb
    by (vm_compute; reflexivity).
  assert ((Py.set [9] ∩ Py.set [2; 3; 4; 5; 6; 7; 8]) ∩ Py.set [3; 4; 5; 6; 7; 8; 9]
          = (∅ : gset Z)) as Hempty by (vm_compute; reflexivity).
  split; [exact Hg|]. split; [lia|]. split; [lia|]. split; [reflexivity|].
  split; [exact Hmr|]. split; [exact Hmc|]. split; [exact Hmb|]. split; [exact Hempty|].
  exact (empty_candidates_leave_cell_empty dead_end 0 0 _ _ _
           Hg ltac:(lia) ltac:(lia) eq_refl Hmr Hmc Hmb Hempty).
Defined.

(** ** Input *)

Lemma int_ok c v : Py.int c = Ok v → 0 ≤ v ≤ 9.
Proof. unfold Py.int. case_bool_decide; [|done]. intros; simplify_eq. lia. Qed.

Lemma int_raise c e : Py.int c = Raise e → e = ValueError.
Proof. unfold Py.int. case_bool_decide; [done|]. by intros; simplify_eq. Qed.

Lemma map_int_ok inp row : Py.map_int inp = Ok row → Forall (λ v, 0 ≤ v ≤ 9) row.
Proof.
  unfold Py.map_int. generalize (String.list_ascii_of_string inp). intros cs.
  revert row. induction cs as [|c cs IH]; intros row H.
  - injection H as <-. constructor.
  - cbn in H. apply bind_ok_inv in H as (v & Hv%int_ok & H).
    apply bind_ok_inv in H as (row' & Hrow'%IH & H). injection H as <-.
    by constructor.
Qed.

Lemma map_int_raise inp e : Py.map_int inp = Raise e → e = ValueError.
Proof.
  unfold Py.map_int. generalize (String.list_ascii_of_string inp). intros cs.
  induction cs as [|c cs IH]; [done|]. cbn.
  intros [H|(v & _ & [H|(row & _ & H)]%bind_raise_inv)]%bind_raise_inv.
  - by eapply int_raise.
  - by apply IH.
  - done.
Qed.

(** An invariant of a loop holds when it ends normally. *)
Lemma for_invariant {S I} (P : nat → S → Prop) (l : list I) (body : I → S → res S) :
  (∀ n i s s', body i s = Ok s' → P n s → P (Datatypes.S n) s') →
  ∀ n s s', P n s → Py.for_ l body s = Ok s' → P (n + length l)%nat s'.
Proof.
  intros Hbody. induction l as [|i l IH]; intros n s s' HP H.
  - cbn in H. simplify_eq. by rewrite Nat.add_0_r.
  - cbn in H. apply bind_ok_inv in H as (s1 & Hs1 & H).
    cbn [length]. rewrite <-Nat.add_succ_comm. eapply IH; [|done]. by eapply Hbody.
Qed.

(** What a loop raises is raised by a turn of its body. *)
Lemma for_raise_from {S I} (P : exn → Prop) (l : list I) (body : I → S → res S) s e :
  (∀ i s e', body i s = Raise e' → P e') →
  Py.for_ l body s = Raise e → P e.
Proof.
  intros Hbody. revert s. induction l as [|i l IH]; intros s H; [done|].
  cbn in H. apply bind_raise_inv in H as [H|(s' & _ & H)]; eauto.
Qed.

Lemma read_puzzle_ok stdin puzzle :
  read_puzzle stdin = Ok puzzle →
  length puzzle = 9%nat ∧ Forall (Forall (λ v, 0 ≤ v ≤ 9)) puzzle.
Proof.
  intros (st & Hst & H)%bind_ok_inv. injection H as <-.
  pose (P := λ (n : nat) (st : grid * list String.string),
    length st.1 = n ∧ Forall (Forall (λ v, 0 ≤ v ≤ 9)) st.1).
  change (P (0 + length (Py.range 9))%nat st).
  refine (for_invariant P _ _ _ 0%nat ([], stdin) st _ Hst);
    [|subst P; cbn; split; [reflexivity|constructor]].
  subst P. intros n i [p rest] s' Hbody [Hlen Hdig]. cbn in *.
  apply bind_ok_inv in Hbody as ([inp rest'] & _ & Hbody).
  apply bind_ok_inv in Hbody as (row & Hrow%map_int_ok & Hbody).
  injection Hbody as <-. split; cbn.
  - rewrite length_app. cbn. lia.
  - apply Forall_app. split; [done|]. by constructor.
Qed.

Lemma read_puzzle_raise stdin e :
  read_puzzle stdin = Raise e → e = EOFError ∨ e = ValueError.
Proof.
  intros [H|(st & _ & H)]%bind_raise_inv; [|done]. revert H.
  apply (for_raise_from (λ e, e = EOFError ∨ e = ValueError)).
  intros _ [p rest] e'. cbn.
  intros [H|([inp rest'] & _ & [H|(row & _ & H)]%bind_raise_inv)]%bind_raise_inv.
  - left. destruct rest; cbn in H; by simplify_eq.
  - right. by eapply map_int_raise.
  - done.
Qed.

(** C4, as the specification states it, fails: the grid of 81 ones has
    duplicate clues in every row, column and box, and the driver hands it to
    [sud] and returns it as the solved result. *)
Lemma ones_returned_as_solved :
  read_puzzle ones_input = Ok ones ∧
  duplicate_clue ones ∧
  sud ones = Ok (true, ones) ∧
  ∀ fuel, sudoku fuel ones_input = Solved ones.
Proof.
  split_and!.
  - by vm_compute.
  - exists 0%nat. split; [lia|]. left. exists 0%nat, 1%nat, 1. by vm_compute.
  - by vm_compute.
  - intros fuel. unfold sudoku.
    replace (read_puzzle ones_input) with (Ok ones : res grid) by by vm_compute.
    unfold sudoku_from. replace (sud ones) with (Ok (true, ones) : res _) by by vm_compute.
    apply sudoku_loop_exit.
Qed.

(** C4, amended.  The driver makes no validity check.  The grid the input
    loop parses has nine rows of digits from 0 to 9 and is handed to [sud] as
    it is: when a row has fewer than nine digits the first sweep raises an
    [IndexError], and a nine-by-nine grid without empty cells is returned as
    the solved result, whatever duplicates it holds. *)
Theorem input_is_swept_unchecked stdin puzzle fuel :
  read_puzzle stdin = Ok puzzle →
  length puzzle = 9%nat ∧ Forall (Forall (λ v, 0 ≤ v ≤ 9)) puzzle ∧
  sudoku fuel stdin = sudoku_from fuel puzzle ∧
  (¬ indexable puzzle → sudoku fuel stdin = Crashed IndexError) ∧
  (nine_by_nine puzzle → complete puzzle → sudoku fuel stdin = Solved puzzle).
Proof.
  intros Hread. pose proof (read_puzzle_ok _ _ Hread) as [Hlen Hdig].
  assert (sudoku fuel stdin = sudoku_from fuel puzzle) as Hrun.
  { unfold sudoku. by rewrite Hread. }
  split_and!; [done..| |].
  - intros Hg. rewrite Hrun. unfold sudoku_from. by rewrite sud_not_indexable.
  - intros Hg Hc. rewrite Hrun. unfold sudoku_from.
    rewrite sud_ok by by apply nine_by_nine_indexable.
    rewrite (proj2 (completeb_complete puzzle) Hc), sweep_grid_complete by done.
    apply sudoku_loop_exit.
Qed.

Lemma input_is_swept_unchecked_witness :
  read_puzzle ones_input = Ok ones ∧
  length ones = 9%nat ∧ Forall (Forall (λ v, 0 ≤ v ≤ 9)) ones ∧
  sudoku 0 ones_input = sudoku_from 0 ones ∧
  (¬ indexable ones → sudoku 0 ones_input = Crashed IndexError) ∧
  (nine_by_nine ones → complete ones → sudoku 0 ones_input = Solved ones).
Proof.
  assert (read_puzzle ones_input = Ok ones) as Hread by (vm_compute; reflexivity).
  split; [exact Hread|]. exact (input_is_swept_unchecked ones_input ones 0 Hread).
Defined.

(** * Further properties of the script *)

(** ** The three check functions *)

Lemma StronglySorted_filter_lt (P : Z → Prop) `{!∀ v, Decision (P v)} (l : list Z) :
  StronglySorted Z.lt l → StronglySorted Z.lt (filter P l).
Proof.
  induction 1 as [|x l Hl IH Hx]; [constructor|].
  rewrite filter_cons. destruct (decide (P x)); [|done].
  constructor; [done|]. apply Forall_forall. intros y [_ Hy]%list_elem_of_filter.
  by eapply Forall_forall in Hx.
Qed.

Lemma StronglySorted_missing_from vals : StronglySorted Z.lt (missing_from vals).
Proof.
  apply StronglySorted_filter_lt. unfold digits.
  repeat (constructor; [|repeat constructor; lia]). constructor.
Qed.

(** [checkrow] raises when the puzzle has no row [r]; otherwise it returns,
    in increasing order, the digits from 1 to 9 that do not occur anywhere
    in that row, whatever the length of the row. *)
Theorem checkrow_spec r g :
  match g !! r with
  | Some row =>
      ∃ m, checkrow r g = Ok m ∧ StronglySorted Z.lt m ∧
           ∀ v, v ∈ m ↔ (1 ≤ v ≤ 9) ∧ (v ∉ row)
  | None => checkrow r g = Raise IndexError
  end.
Proof.
  destruct (g !! r) as [row|] eqn:Hrow.
  - exists (missing_from row). split_and!.
    + rewrite checkrow_ok by by eapply lookup_lt_Some.
      unfold row_vals. by rewrite Hrow.
    + apply StronglySorted_missing_from.
    + apply elem_of_missing_from.
  - destruct (checkrow r g) as [m|e] eqn:H.
    + apply checkrow_ok_inv, lookup_lt_is_Some in H as [row' ?]. congruence.
    + by apply checkrow_raise in H as ->.
Qed.

Lemma elem_of_col_vals g c v :
  Forall (λ row : list Z, c < length row)%nat g →
  v ∈ col_vals g c ↔ ∃ row, row ∈ g ∧ row !! c = Some v.
Proof.
  intros Hc. unfold col_vals. rewrite list_elem_of_fmap. split.
  - intros (row & -> & Hrow). exists row. split; [done|].
    pose proof (proj1 (Forall_forall _ _) Hc row Hrow) as Hlen. cbn in Hlen.
    apply lookup_lt_is_Some in Hlen as [x Hx]. by rewrite Hx.
  - intros (row & Hrow & Hv). exists row. by rewrite Hv.
Qed.

(** [checkcol] reads entry [c] of every row of the puzzle, the rows after
    the ninth too: it raises when one of them is too short, and otherwise
    returns, in increasing order, the digits from 1 to 9 that no row holds
    at [c].  On the puzzle without rows this is every digit. *)
Theorem checkcol_spec c g :
  if decide (Forall (λ row : list Z, c < length row)%nat g) then
    ∃ m, checkcol c g = Ok m ∧ StronglySorted Z.lt m ∧
         ∀ v, v ∈ m ↔ (1 ≤ v ≤ 9) ∧ ∀ row, row ∈ g → row !! c ≠ Some v
  else checkcol c g = Raise IndexError.
Proof.
  case_decide as Hc.
  - exists (missing_from (col_vals g c)). split_and!.
    + by apply checkcol_ok.
    + apply StronglySorted_missing_from.
    + intros v. rewrite elem_of_missing_from, elem_of_col_vals by done.
      split; intros [Hv Hn]; (split; [done|]).
      * intros row Hrow Hcv. apply Hn. by exists row.
      * intros (row & Hrow & Hcv). by apply (Hn row).
  - destruct (checkcol c g) as [m|e] eqn:H.
    + by apply checkcol_ok_inv in H.
    + by apply checkcol_raise in H as ->.
Qed.

Lemma elem_of_slice (row : list Z) a b v :
  v ∈ Py.slice row a b ↔ ∃ k, (a ≤ k < b)%nat ∧ row !! k = Some v.
Proof.
  unfold Py.slice. rewrite elem_of_take. setoid_rewrite lookup_drop. split.
  - intros (i & Hv & Hi). exists (a + i)%nat. split; [lia|done].
  - intros (k & Hk & Hv). exists (k - a)%nat.
    replace (a + (k - a))%nat with k by lia. split; [done|lia].
Qed.

Lemma elem_of_box_vals g n v :
  v ∈ box_vals g n ↔
  ∃ dr dc row, (dr < 3)%nat ∧ (dc < 3)%nat ∧
    g !! (n / 3 * 3 + dr)%nat = Some row ∧ row !! (3 * (n mod 3) + dc)%nat = Some v.
Proof.
  assert (∀ dr, v ∈ Py.slice (row_vals g (n / 3 * 3 + dr))
                      (3 * (n mod 3)) ((n mod 3 + 1) * 3) ↔
    ∃ dc row, (dc < 3)%nat ∧ g !! (n / 3 * 3 + dr)%nat = Some row ∧
      row !! (3 * (n mod 3) + dc)%nat = Some v) as Hslice.
  { intros dr. rewrite elem_of_slice. unfold row_vals. split.
    - intros (k & Hk & Hv). destruct (g !! (n / 3 * 3 + dr)%nat) as [row|]; [|done].
      exists (k - 3 * (n mod 3))%nat, row. split_and!; [lia|done|].
      by replace (3 * (n mod 3) + (k - 3 * (n mod 3)))%nat with k by lia.
    - intros (dc & row & Hdc & -> & Hv). exists (3 * (n mod 3) + dc)%nat.
      split; [lia|done]. }
  unfold box_vals. rewrite !elem_of_app, !Hslice. split.
  - intros [(dc & row & Hdc & Hrow & Hv)|[(dc & row & Hdc & Hrow & Hv)|
                                          (dc & row & Hdc & Hrow & Hv)]];
      [exists 0%nat|exists 1%nat|exists 2%nat]; exists dc, row;
      (split_and!; [lia|done|done|done]).
  - intros (dr & dc & row & Hdr & Hdc & Hrow & Hv).
    destruct dr as [|[|[|dr]]]; [left|right; left|right; right|lia];
      by exists dc, row.
Qed.

(** [checkbox] raises when one of the three rows of the box is missing from
    the puzzle.  Otherwise it never raises: a row too short for the three
    columns of the box gives the cells it has.  The result holds, in
    increasing order, the digits from 1 to 9 that none of these cells
    holds. *)
Theorem checkbox_spec n g :
  if decide (n / 3 * 3 + 2 < length g)%nat then
    ∃ m, checkbox n g = Ok m ∧ StronglySorted Z.lt m ∧
         ∀ v, v ∈ m ↔ (1 ≤ v ≤ 9) ∧
           ∀ dr dc row, (dr < 3)%nat → (dc < 3)%nat →
             g !! (n / 3 * 3 + dr)%nat = Some row →
             row !! (3 * (n mod 3) + dc)%nat ≠ Some v
  else checkbox n g = Raise IndexError.
Proof.
  case_decide as Hn.
  - exists (missing_from (box_vals g n)). split_and!.
    + by apply checkbox_ok.
    + apply StronglySorted_missing_from.
    + intros v. rewrite elem_of_missing_from, elem_of_box_vals.
      split; intros [Hv Hbox]; (split; [done|]).
      * intros dr dc row Hdr Hdc Hrow Hcv. apply Hbox. by exists dr, dc, row.
      * intros (dr & dc & row & Hdr & Hdc & Hrow & Hcv). by apply (Hbox dr dc row).
  - destruct (checkbox n g) as [m|e] eqn:H.
    + by apply checkbox_ok_inv in H.
    + by apply checkbox_raise in H as ->.
Qed.

(** ** What a sweep raises and returns *)

(** [sud] returns normally exactly on the puzzles with at least nine rows
    all of whose rows, the rows after the ninth too, have at least nine
    entries; on every other puzzle it raises an [IndexError], and it raises
    nothing else. *)
Theorem sud_returns_iff_indexable g :
  (indexable g ↔ ∃ fin g', sud g = Ok (fin, g')) ∧
  (¬ indexable g ↔ sud g = Raise IndexError) ∧
  (∀ e, sud g = Raise e → e = IndexError).
Proof.
  split_and!.
  - split.
    + intros Hg. eexists _, _. by apply sud_ok.
    + intros (fin & g' & H). by eapply sud_ok_inv.
  - split; [apply sud_not_indexable|].
    intros H Hg. by rewrite sud_ok in H.
  - intros e. apply sud_raise.
Qed.

Lemma pick_candidates_range g i j : 0 ≤ pick (candidates g i j) ≤ 9.
Proof.
  destruct (decide (size (candidates g i j) = 1%nat)) as [Hs|Hs].
  - assert (pick (candidates g i j) ∈ candidates g i j) as Hin.
    { rewrite (pick_size_1 _ Hs) at 2. by apply elem_of_singleton. }
    apply elem_of_candidates in Hin. lia.
  - rewrite pick_size_other by done. lia.
Qed.

(** Whatever the size of the puzzle it was handed, [sud] returns nine rows
    of nine values: the clues among the first nine entries of the first nine
    rows unchanged, and in the place of each empty cell a value from 0 to
    9. *)
Theorem sud_result_shape g fin g' :
  sud g = Ok (fin, g') →
  nine_by_nine g' ∧
  ∀ i j, (i < 9)%nat → (j < 9)%nat →
    (cell g i j ≠ 0 → cell g' i j = cell g i j) ∧
    (cell g i j = 0 → 0 ≤ cell g' i j ≤ 9).
Proof.
  intros (_ & _ & ->)%sud_inv. split; [apply sweep_grid_nine_by_nine|].
  intros i j Hi Hj. rewrite cell_sweep_grid by done. split.
  - apply sweep_cell_clue.
  - intros Hz. rewrite sweep_cell_empty by done. apply pick_candidates_range.
Qed.

Lemma sud_result_shape_witness :
  sud long_rows = Ok (false, sweep_grid long_rows) ∧
  nine_by_nine (sweep_grid long_rows) ∧
  ∀ i j, (i < 9)%nat → (j < 9)%nat →
    (cell long_rows i j ≠ 0 → cell (sweep_grid long_rows) i j = cell long_rows i j) ∧
    (cell long_rows i j = 0 → 0 ≤ cell (sweep_grid long_rows) i j ≤ 9).
Proof.
  assert (sud long_rows = Ok (false, sweep_grid long_rows)) as Hsud
    by (vm_compute; reflexivity).
  split; [exact Hsud|].
  exact (sud_result_shape long_rows false (sweep_grid long_rows) Hsud).
Defined.

(** ** What a sweep assigns *)

Lemma cell_nonzero_lookup g i j :
  cell g i j ≠ 0 → ∃ row, g !! i = Some row ∧ row !! j = Some (cell g i j).
Proof.
  unfold cell. destruct (g !! i) as [row|]; [|done]. cbn.
  destruct (row !! j) as [v|] eqn:Hv; [|done]. cbn. eauto.
Qed.

Lemma cell_in_row_vals g i j : cell g i j ≠ 0 → cell g i j ∈ row_vals g i.
Proof.
  intros (row & Hrow & Hv)%cell_nonzero_lookup. unfold row_vals. rewrite Hrow.
  apply list_elem_of_lookup. eauto.
Qed.

Lemma cell_in_col_vals g i j : cell g i j ≠ 0 → cell g i j ∈ col_vals g j.
Proof.
  intros (row & Hrow & Hv)%cell_nonzero_lookup. unfold col_vals.
  apply list_elem_of_fmap. exists row. rewrite Hv. split; [done|].
  apply list_elem_of_lookup. eauto.
Qed.

Lemma elem_of_box_cells n i j :
  (i, j) ∈ box_cells n ↔
  ∃ dr dc, (dr < 3)%nat ∧ (dc < 3)%nat ∧
    i = (3 * (n / 3) + dr)%nat ∧ j = (3 * (n mod 3) + dc)%nat.
Proof.
  unfold box_cells.
  rewrite list_elem_of_bind. setoid_rewrite list_elem_of_bind.
  setoid_rewrite elem_of_seq. setoid_rewrite list_elem_of_singleton. split.
  - intros (dr & (dc & Hij & Hdc) & Hdr). simplify_eq.
    exists dr, dc. split_and!; [lia|lia|done|done].
  - intros (dr & dc & Hdr & Hdc & -> & ->).
    exists dr. split; [|lia]. exists dc. split; [done|lia].
Qed.

Lemma cell_in_box_vals g i j i' j' :
  (i < 9)%nat → (j < 9)%nat → (i' < 9)%nat → (j' < 9)%nat →
  box_index i' j' = box_index i j → cell g i' j' ≠ 0 →
  cell g i' j' ∈ box_vals g (box_index i j).
Proof.
  intros Hi Hj Hi' Hj' Hbox (row & Hrow & Hv)%cell_nonzero_lookup.
  pose proof (box_index_lt i j Hi Hj) as Hn.
  apply box_index_cells, elem_of_box_cells in Hbox as (dr & dc & Hdr & Hdc & -> & ->);
    [|done..].
  apply elem_of_box_vals. exists dr, dc, row. split_and!; [done|done| |done].
  by replace (box_index i j / 3 * 3 + dr)%nat with (3 * (box_index i j / 3) + dr)%nat by lia.
Qed.

(** A value a sweep writes into an empty cell is a digit from 1 to 9 that
    no cell of the same row, of the same column or of the same box of the
    grid it was handed holds. *)
Theorem sweep_assigns_absent_digit g fin g' i j :
  sud g = Ok (fin, g') → (i < 9)%nat → (j < 9)%nat →
  cell g i j = 0 → cell g' i j ≠ 0 →
  (1 ≤ cell g' i j ≤ 9) ∧
  (∀ j', cell g i j' ≠ cell g' i j) ∧
  (∀ i', cell g i' j ≠ cell g' i j) ∧
  (∀ i' j', (i' < 9)%nat → (j' < 9)%nat →
     (i' / 3 * 3 + j' / 3)%nat = (i / 3 * 3 + j / 3)%nat →
     cell g i' j' ≠ cell g' i j).
Proof.
  intros (_ & _ & ->)%sud_inv Hi Hj Hz. rewrite cell_sweep_grid by done.
  rewrite sweep_cell_empty by done. intros Hp.
  pose proof Hp as Hs%pick_candidates_nonzero.
  assert (pick (candidates g i j) ∈ candidates g i j) as Hin.
  { rewrite (pick_size_1 _ Hs) at 2. by apply elem_of_singleton. }
  apply elem_of_candidates in Hin as (Hrange & Hrow & Hcol & Hbox).
  split; [exact Hrange|]. split; [|split].
  - intros j' Heq. apply Hrow. rewrite <-Heq. apply cell_in_row_vals. congruence.
  - intros i' Heq. apply Hcol. rewrite <-Heq. apply cell_in_col_vals. congruence.
  - intros i' j' Hi' Hj' Hsame Heq. apply Hbox. rewrite <-Heq.
    apply cell_in_box_vals; [done..|congruence].
Qed.

Lemma sweep_assigns_absent_digit_witness :
  sud sample = Ok (false, sweep_grid sample) ∧ (1 < 9)%nat ∧ (3 < 9)%nat ∧
  cell sample 1 3 = 0 ∧ cell (sweep_grid sample) 1 3 ≠ 0 ∧
  (1 ≤ cell (sweep_grid sample) 1 3 ≤ 9) ∧
  (∀ j', cell sample 1 j' ≠ cell (sweep_grid sample) 1 3) ∧
  (∀ i', cell sample i' 3 ≠ cell (sweep_grid sample) 1 3) ∧
  (∀ i' j', (i' < 9)%nat → (j' < 9)%nat →
     (i' / 3 * 3 + j' / 3)%nat = (1 / 3 * 3 + 3 / 3)%nat →
     cell sample i' j' ≠ cell (sweep_grid sample) 1 3).
Proof.
  assert (sud sample = Ok (false, sweep_grid sample)) as Hsud by (vm_compute; reflexivity).
  assert (cell (sweep_grid sample) 1 3 ≠ 0) as Hnz by (vm_compute; discriminate).
  split; [exact Hsud|]. split; [lia|]. split; [lia|]. split; [reflexivity|].
  split; [exact Hnz|].
  exact (sweep_assigns_absent_digit sample false (sweep_grid sample) 1 3
           Hsud ltac:(lia) ltac:(lia) eq_refl Hnz).
Defined.

(** ** Sweeps and solutions *)

Lemma NoDup_digits : NoDup digits.
Proof. apply (bool_decide_unpack _). by vm_compute. Qed.

(** Nine values with no digit missing are the nine digits, each once. *)
Lemma full_region vals :
  length vals = 9%nat → missing_from vals = [] → vals ≡ₚ digits.
Proof.
  intros Hlen Hfull. symmetry. apply submseteq_length_Permutation; [|by rewrite Hlen].
  apply NoDup_submseteq; [apply NoDup_digits|]. intros d Hd.
  destruct (decide (d ∈ vals)) as [|Hout]; [done|].
  assert (d ∈ missing_from vals) as Hin by by apply list_elem_of_filter.
  rewrite Hfull in Hin. by apply elem_of_nil in Hin.
Qed.

Lemma length_box_cells n : length (box_cells n) = 9%nat.
Proof. reflexivity. Qed.

Lemma solution_regions s n :
  is_solution s → (n < 9)%nat →
  row_vals s n ≡ₚ digits ∧ col_vals s n ≡ₚ digits ∧ box_vals s n ≡ₚ digits.
Proof.
  intros [Hs Hfull] Hn. destruct (Hfull n Hn) as (Hrow & Hcol & Hbox).
  pose proof (nine_by_nine_indexable s Hs) as Hi. destruct Hs as [Hlen Hrows].
  rewrite checkrow_ok in Hrow by lia.
  rewrite checkcol_ok in Hcol by by apply indexable_col.
  rewrite checkbox_ok in Hbox
    by (assert (n / 3 < 3)%nat by (apply Nat.Div0.div_lt_upper_bound; lia); lia).
  split_and!; apply full_region; try congruence.
  - destruct (lookup_lt_is_Some_2 s n) as [row Hr]; [lia|].
    unfold row_vals. rewrite Hr. apply (Forall_lookup_1 _ _ _ _ Hrows Hr).
  - unfold col_vals. by rewrite length_fmap.
  - rewrite box_vals_cells by done. by rewrite length_fmap, length_box_cells.
Qed.

Lemma solution_cell_digit s i j :
  is_solution s → (i < 9)%nat → (j < 9)%nat → 1 ≤ cell s i j ≤ 9.
Proof.
  intros Hs Hi Hj. destruct (solution_regions s i Hs Hi) as (Hrow & _ & _).
  destruct (indexable_lookup s i j) as (row & Hr & Hv);
    [apply nine_by_nine_indexable, Hs|done..|].
  assert (cell s i j ∈ digits) as Hd.
  { rewrite <-Hrow. unfold row_vals. rewrite Hr. apply list_elem_of_lookup. eauto. }
  unfold digits in Hd. rewrite !elem_of_cons, elem_of_nil in Hd. lia.
Qed.

Lemma col_vals_lookup g i j :
  cell g i j ≠ 0 → col_vals g j !! i = Some (cell g i j).
Proof.
  intros (row & Hrow & Hv)%cell_nonzero_lookup. unfold col_vals.
  rewrite list_lookup_fmap, Hrow. cbn. by rewrite Hv.
Qed.

Lemma NoDup_fmap_same {A B} (f : A → B) (l : list A) x y :
  NoDup (f <$> l) → x ∈ l → y ∈ l → f x = f y → x = y.
Proof.
  intros Hnd [p Hp]%list_elem_of_lookup [q Hq]%list_elem_of_lookup Hxy.
  assert (p = q) as ->; [|congruence].
  apply (NoDup_lookup _ _ _ (f x) Hnd); rewrite list_lookup_fmap.
  - by rewrite Hp.
  - by rewrite Hq, Hxy.
Qed.

(** In a solved grid a digit stands once in its row, column and box. *)
Lemma solution_row_once s i j j' :
  is_solution s → (i < 9)%nat → (j < 9)%nat → cell s i j' = cell s i j → j' = j.
Proof.
  intros Hs Hi Hj Heq. pose proof (solution_cell_digit s i j Hs Hi Hj) as Hd.
  destruct (solution_regions s i Hs Hi) as (Hrow & _ & _).
  assert (NoDup (row_vals s i)) as Hnd by (rewrite Hrow; apply NoDup_digits).
  destruct (cell_nonzero_lookup s i j) as (row & Hr & Hv); [lia|].
  destruct (cell_nonzero_lookup s i j') as (row' & Hr' & Hv'); [lia|].
  unfold row_vals in Hnd. rewrite Hr in Hnd. cbn in Hnd. simplify_eq.
  apply (NoDup_lookup _ _ _ (cell s i j) Hnd); congruence.
Qed.

Lemma solution_col_once s i i' j :
  is_solution s → (i < 9)%nat → (j < 9)%nat → cell s i' j = cell s i j → i' = i.
Proof.
  intros Hs Hi Hj Heq. pose proof (solution_cell_digit s i j Hs Hi Hj) as Hd.
  destruct (solution_regions s j Hs Hj) as (_ & Hcol & _).
  assert (NoDup (col_vals s j)) as Hnd by (rewrite Hcol; apply NoDup_digits).
  apply (NoDup_lookup _ _ _ (cell s i j) Hnd).
  - rewrite <-Heq. apply col_vals_lookup. lia.
  - apply col_vals_lookup. lia.
Qed.

Lemma solution_box_once s i j i' j' :
  is_solution s → (i < 9)%nat → (j < 9)%nat → (i' < 9)%nat → (j' < 9)%nat →
  box_index i' j' = box_index i j → cell s i' j' = cell s i j → (i', j') = (i, j).
Proof.
  intros Hs Hi Hj Hi' Hj' Hbox Heq.
  pose proof (box_index_lt i j Hi Hj) as Hn.
  destruct (solution_regions s _ Hs Hn) as (_ & _ & Hb).
  assert (NoDup (box_vals s (box_index i j))) as Hnd by (rewrite Hb; apply NoDup_digits).
  rewrite box_vals_cells in Hnd by (done || apply nine_by_nine_indexable, Hs).
  apply (NoDup_fmap_same (λ ij, cell s ij.1 ij.2) _ _ _ Hnd); [| |done].
  - by apply box_index_cells.
  - by apply box_index_cells.
Qed.

(** A sweep loses no solution. *)
Lemma sweep_grid_keeps_solution g s :
  indexable g → is_solution s → keeps_clues g s → keeps_clues (sweep_grid g) s.
Proof.
  intros Hg Hs Hkeep i j Hc.
  destruct (decide (i < 9 ∧ j < 9)%nat) as [[Hi Hj]|Hij];
    [|by rewrite cell_outside in Hc by (done || apply sweep_grid_nine_by_nine)].
  rewrite cell_sweep_grid in * by done.
  destruct (decide (cell g i j = 0)) as [Hz|Hz];
    [|rewrite sweep_cell_clue by done; by apply Hkeep].
  rewrite sweep_cell_empty in * by done.
  pose proof Hc as Hsize%pick_candidates_nonzero.
  pose proof (solution_cell_digit s i j Hs Hi Hj) as Hd.
  assert (cell s i j ∈ candidates g i j) as Hin.
  { apply elem_of_candidates. split_and!; [lia..| | |].
    - unfold row_vals. destruct (g !! i) as [row|] eqn:Hrow; [|by apply not_elem_of_nil].
      intros [j' Hv]%list_elem_of_lookup.
      assert (cell g i j' = cell s i j) as Hg' by by eapply cell_lookup.
      assert (cell s i j' = cell s i j) as Heq by (rewrite <-Hg'; apply Hkeep; lia).
      apply solution_row_once in Heq as ->; [|done..]. lia.
    - intros (row & [i' Hrow]%list_elem_of_lookup & Hv)%elem_of_col_vals;
        [|by apply indexable_col].
      assert (cell g i' j = cell s i j) as Hg' by by eapply cell_lookup.
      assert (cell s i' j = cell s i j) as Heq by (rewrite <-Hg'; apply Hkeep; lia).
      apply solution_col_once in Heq as ->; [|done..]. lia.
    - intros (dr & dc & row & Hdr & Hdc & Hrow & Hv)%elem_of_box_vals.
      pose proof (box_index_lt i j Hi Hj) as Hn.
      remember (box_index i j) as n eqn:Hbox.
      assert (n / 3 < 3)%nat by (apply Nat.Div0.div_lt_upper_bound; lia).
      assert (n mod 3 < 3)%nat by (apply Nat.mod_upper_bound; lia).
      assert (cell g (n / 3 * 3 + dr) (3 * (n mod 3) + dc) = cell s i j) as Hg'
        by by eapply cell_lookup.
      assert (cell s (n / 3 * 3 + dr) (3 * (n mod 3) + dc) = cell s i j) as Heq
        by (rewrite <-Hg'; apply Hkeep; lia).
      apply (solution_box_once s i j _ _ Hs Hi Hj) in Heq; [|lia|lia|].
      + pose proof (f_equal fst Heq) as Hi_eq. pose proof (f_equal snd Heq) as Hj_eq.
        cbn [fst snd] in Hi_eq, Hj_eq. rewrite Hi_eq, Hj_eq in Hg'. lia.
      + rewrite <-Hbox. apply box_index_cells; [done|lia|lia|].
        apply elem_of_box_cells. exists dr, dc. split_and!; [done|done|lia|done]. }
  rewrite (pick_size_1 _ Hsize) in Hin. by apply elem_of_singleton in Hin.
Qed.

(** A sweep loses no solution: a solved grid that keeps the clues of the
    grid handed to [sud] also keeps every value of the grid [sud] returns,
    the assigned ones too. *)
Theorem sweep_keeps_solutions g fin g' s :
  sud g = Ok (fin, g') → is_solution s → keeps_clues g s → keeps_clues g' s.
Proof.
  intros (Hg & _ & ->)%sud_inv Hs Hkeep. by apply sweep_grid_keeps_solution.
Qed.

Lemma keeps_clues_sample : keeps_clues sample sample_solved.
Proof.
  intros i j Hc. destruct (decide (i < 9 ∧ j < 9)%nat) as [[Hi Hj]|Hij];
    [|by rewrite cell_outside in Hc by (done || apply nine_by_nine_sample)].
  do 9 (destruct i as [|i];
        [do 9 (destruct j as [|j]; [first [reflexivity|by destruct Hc]|]); lia|]).
  lia.
Qed.

Lemma sweep_keeps_solutions_witness :
  sud sample = Ok (false, sweep_grid sample) ∧ is_solution sample_solved ∧
  keeps_clues sample sample_solved ∧ keeps_clues (sweep_grid sample) sample_solved.
Proof.
  assert (sud sample = Ok (false, sweep_grid sample)) as Hsud by (vm_compute; reflexivity).
  split; [exact Hsud|]. split; [exact sample_solved_is_solution|].
  split; [exact keeps_clues_sample|].
  exact (sweep_keeps_solutions sample false (sweep_grid sample) sample_solved
           Hsud sample_solved_is_solution keeps_clues_sample).
Defined.

(** ** What the driver returns *)

Lemma complete_sweep_grid g : complete g → complete (sweep_grid g).
Proof.
  intros Hc i j Hi Hj. rewrite cell_sweep_grid, sweep_cell_clue by auto. auto.
Qed.

(** A property of grids that every sweep keeps holds of the grid the loop
    leaves with, which is nine by nine and has no empty cell. *)
Lemma loop_result (P : grid → Prop) :
  (∀ g, indexable g → P g → P (sweep_grid g)) →
  ∀ fuel fin g out,
    nine_by_nine g → (fin = true → complete g) → P g →
    sudoku_loop fuel (fin, g) = Solved out →
    nine_by_nine out ∧ complete out ∧ P out.
Proof.
  intros HP. induction fuel as [|fuel IH]; intros fin g out Hg Hfin HPg H.
  - destruct fin; [|done]. rewrite sudoku_loop_exit in H. simplify_eq. auto.
  - destruct fin; [rewrite sudoku_loop_exit in H; simplify_eq; auto|].
    rewrite sudoku_loop_turn, sud_ok in H by by apply nine_by_nine_indexable.
    eapply IH; [apply sweep_grid_nine_by_nine| | |done].
    + intros Hc%completeb_complete. by apply complete_sweep_grid.
    + apply HP; [by apply nine_by_nine_indexable|done].
Qed.

Lemma sudoku_from_result (P : grid → Prop) fuel g out :
  (∀ g, indexable g → P g → P (sweep_grid g)) →
  P g → sudoku_from fuel g = Solved out →
  nine_by_nine out ∧ complete out ∧ P out.
Proof.
  intros HP HPg H. unfold sudoku_from in H.
  destruct (sud g) as [[fin g1]|e] eqn:Hsud; [|done].
  apply sud_inv in Hsud as (Hg & -> & ->).
  eapply (loop_result P HP); [apply sweep_grid_nine_by_nine| | |done].
  - intros Hc%completeb_complete. by apply complete_sweep_grid.
  - by apply HP.
Qed.

(** When the driver returns a grid for a puzzle that has a solution, the
    grid is that solution; so the driver returns nothing for a puzzle with
    two solutions. *)
Theorem driver_returns_the_solution fuel g out s :
  sudoku_from fuel g = Solved out → is_solution s → keeps_clues g s → out = s.
Proof.
  intros H Hs Hkeep.
  destruct (sudoku_from_result (λ g, keeps_clues g s) fuel g out) as (Hout & Hc & Hk);
    [|done|done|].
  { intros g0 Hg0 Hk0. by apply sweep_grid_keeps_solution. }
  apply nine_by_nine_ext; [done|apply Hs|].
  intros i j Hi Hj. symmetry. apply Hk. by apply Hc.
Qed.

Lemma driver_returns_the_solution_witness :
  sudoku_from 9 sample = Solved sample_solved ∧ is_solution sample_solved ∧
  keeps_clues sample sample_solved ∧ sample_solved = sample_solved.
Proof.
  assert (sudoku_from 9 sample = Solved sample_solved) as Hrun by (vm_compute; reflexivity).
  split; [exact Hrun|]. split; [exact sample_solved_is_solution|].
  split; [exact keeps_clues_sample|].
  exact (driver_returns_the_solution 9 sample sample_solved sample_solved
           Hrun sample_solved_is_solution keeps_clues_sample).
Defined.

(** The grid the driver returns has nine rows of nine values and no empty
    cell, whatever the size of the puzzle, and a further sweep returns it
    unchanged, keyed [True]. *)
Theorem driver_result_complete fuel g out :
  sudoku_from fuel g = Solved out →
  nine_by_nine out ∧ complete out ∧ sud out = Ok (true, out).
Proof.
  intros H.
  destruct (sudoku_from_result (λ _, True) fuel g out) as (Hout & Hc & _); [done..|].
  split_and!; [done..|].
  rewrite sud_ok by by apply nine_by_nine_indexable.
  by rewrite (proj2 (completeb_complete out) Hc), sweep_grid_complete.
Qed.

Lemma driver_result_complete_witness :
  sudoku_from 1 long_rows = Solved (sweep_grid long_rows) ∧
  nine_by_nine (sweep_grid long_rows) ∧
  complete (sweep_grid long_rows) ∧
  sud (sweep_grid long_rows) = Ok (true, sweep_grid long_rows).
Proof.
  assert (sudoku_from 1 long_rows = Solved (sweep_grid long_rows)) as Hrun
    by (vm_compute; reflexivity).
  split; [exact Hrun|].
  exact (driver_result_complete 1 long_rows _ Hrun).
Defined.

(** ** Progress and the number of sweeps *)

Lemma count_row_cases (f h : nat → Z) (cols : list nat) :
  (∀ j, j ∈ cols → f j = 0 → h j = 0) →
  (length (filter (λ v, v = 0%Z) (f <$> cols))
   < length (filter (λ v, v = 0%Z) (h <$> cols)))%nat ∨
  (length (filter (λ v, v = 0%Z) (f <$> cols))
   = length (filter (λ v, v = 0%Z) (h <$> cols)) ∧
   ∀ j, j ∈ cols → h j = 0 → f j = 0).
Proof.
  induction cols as [|j cols IH]; intros Hfh.
  - right. split; [done|]. by intros j Hj%elem_of_nil.
  - rewrite !fmap_cons, !filter_cons.
    destruct IH as [Hlt|[Heq Hsame]].
    { intros j' Hj'. apply Hfh. by right. }
    + left. destruct (decide (f j = 0)) as [Hf|Hf].
      * rewrite decide_True by (apply Hfh; [by left|done]). cbn. lia.
      * destruct (decide (h j = 0)); cbn; lia.
    + destruct (decide (f j = 0)) as [Hf|Hf].
      * rewrite decide_True by (apply Hfh; [by left|done]). right. split; [cbn; lia|].
        intros j' [->|Hj']%elem_of_cons; auto.
      * destruct (decide (h j = 0)) as [Hh|Hh]; [left; cbn; lia|].
        right. split; [done|]. intros j' [->|Hj']%elem_of_cons; [done|auto].
Qed.

Lemma count_table_cases (f h : nat → nat → Z) (rows cols : list nat) :
  (∀ i j, i ∈ rows → j ∈ cols → f i j = 0 → h i j = 0) →
  (count_empty ((λ i, f i <$> cols) <$> rows)
   < count_empty ((λ i, h i <$> cols) <$> rows))%nat ∨
  (∀ i j, i ∈ rows → j ∈ cols → h i j = 0 → f i j = 0).
Proof.
  intros Hfh.
  pose proof (count_empty_table f h rows cols Hfh) as Hle. revert Hfh Hle.
  unfold count_empty. induction rows as [|i rows IH]; intros Hfh Hle.
  - right. by intros i j Hi%elem_of_nil.
  - cbn [fmap list_fmap concat] in *. rewrite !filter_app, !length_app in *.
    assert (∀ i' j, i' ∈ rows → j ∈ cols → f i' j = 0 → h i' j = 0) as Hrest
      by (intros i' j Hi'; apply Hfh; by right).
    pose proof (count_empty_table f h rows cols Hrest) as Hle'.
    unfold count_empty in Hle'.
    destruct (count_row_cases (f i) (h i) cols) as [Hlt|[Heq Hsame]].
    { intros j. apply Hfh. by left. }
    + left. lia.
    + destruct (IH Hrest Hle') as [Hlt|Hsame']; [left; lia|].
      right. intros i' j [->|Hi']%elem_of_cons; auto.
Qed.

Lemma sweep_grid_progress g :
  nine_by_nine g → sweep_grid g = g ∨ (count_empty (sweep_grid g) < count_empty g)%nat.
Proof.
  intros Hg.
  destruct (count_table_cases (sweep_cell g) (cell g) (Py.range 9) (Py.range 9))
    as [Hlt|Hsame].
  - intros i j Hi Hj Hs. destruct (decide (cell g i j = 0)) as [|Hc]; [done|].
    by rewrite sweep_cell_clue in Hs.
  - right. by rewrite (nine_by_nine_cells g) at 2.
  - left. apply nine_by_nine_ext; [apply sweep_grid_nine_by_nine|done|].
    intros i j Hi Hj. rewrite cell_sweep_grid by done.
    destruct (decide (cell g i j = 0)) as [Hz|Hz]; [|by apply sweep_cell_clue].
    rewrite Hz. apply Hsame; [apply elem_of_seq; lia..|done].
Qed.

(** A sweep over a nine-by-nine grid either returns the grid it was handed
    or returns a grid with fewer empty cells. *)
Theorem sweep_progress g :
  nine_by_nine g →
  ∃ fin g',
    sud g = Ok (fin, g') ∧ (g' = g ∨ (count_empty g' < count_empty g)%nat).
Proof.
  intros Hg. exists (completeb g), (sweep_grid g).
  split; [by apply sud_ok, nine_by_nine_indexable|by apply sweep_grid_progress].
Qed.

Lemma sweep_progress_witness :
  nine_by_nine sample ∧
  ∃ fin g',
    sud sample = Ok (fin, g') ∧
    (g' = sample ∨ (count_empty g' < count_empty sample)%nat).
Proof.
  split; [exact nine_by_nine_sample|].
  exact (sweep_progress sample nine_by_nine_sample).
Defined.

Lemma loop_no_crash fuel : ∀ fin g e,
  nine_by_nine g → sudoku_loop fuel (fin, g) ≠ Crashed e.
Proof.
  induction fuel as [|fuel IH]; intros fin g e Hg.
  - by destruct fin.
  - destruct fin; [by rewrite sudoku_loop_exit|].
    rewrite sudoku_loop_turn, sud_ok by by apply nine_by_nine_indexable.
    apply IH, sweep_grid_nine_by_nine.
Qed.

(** If the loop ends at all, it ends within as many turns as the grid has
    empty cells, and one more. *)
Lemma loop_bound fuel : ∀ g out,
  nine_by_nine g → sudoku_loop fuel (false, g) = Solved out →
  sudoku_loop (S (count_empty g)) (false, g) = Solved out.
Proof.
  induction fuel as [|fuel IH]; intros g out Hg H; [done|].
  rewrite sudoku_loop_turn, sud_ok in * by by apply nine_by_nine_indexable.
  destruct (completeb g) eqn:Hc; [by rewrite sudoku_loop_exit in *|].
  destruct (sweep_grid_progress g Hg) as [Hsame|Hlt].
  - rewrite Hsame in H. rewrite loop_stalls in H; [done|].
    rewrite sud_ok by by apply nine_by_nine_indexable. by rewrite Hc, Hsame.
  - apply IH in H; [|apply sweep_grid_nine_by_nine].
    eapply loop_more_fuel; [|done]. lia.
Qed.

(** On a nine-by-nine grid the driver either returns within as many turns
    of its loop as the grid has empty cells, or never returns; it does not
    raise. *)
Theorem driver_returns_early_or_never g :
  nine_by_nine g →
  (∃ out, sudoku_from (count_empty g) g = Solved out) ∨
  (∀ fuel, sudoku_from fuel g = OutOfFuel).
Proof.
  intros Hg. destruct (sudoku_from (count_empty g) g) as [out|e|] eqn:Hrun.
  - left. by exists out.
  - rewrite sudoku_from_loop in Hrun. by apply loop_no_crash in Hrun.
  - right. intros fuel. destruct (sudoku_from fuel g) as [out|e|] eqn:Hrun'; [| |done].
    + rewrite sudoku_from_loop in Hrun'. apply loop_bound in Hrun'; [|done].
      rewrite <-sudoku_from_loop in Hrun'. congruence.
    + rewrite sudoku_from_loop in Hrun'. by apply loop_no_crash in Hrun'.
Qed.

Lemma driver_returns_early_or_never_witness :
  nine_by_nine sample ∧
  ((∃ out, sudoku_from (count_empty sample) sample = Solved out) ∨
   (∀ fuel, sudoku_from fuel sample = OutOfFuel)).
Proof.
  split; [exact nine_by_nine_sample|].
  exact (driver_returns_early_or_never sample nine_by_nine_sample).
Defined.

Lemma sudoku_from_crash fuel g e :
  sudoku_from fuel g = Crashed e → ¬ indexable g ∧ e = IndexError.
Proof.
  unfold sudoku_from. destruct (sud g) as [[fin g1]|e'] eqn:Hsud.
  - apply sud_inv in Hsud as (_ & _ & ->). intros H.
    by apply loop_no_crash in H; [|apply sweep_grid_nine_by_nine].
  - intros H. simplify_eq. pose proof (sud_raise _ _ Hsud) as ->.
    split; [|done]. intros Hg. by rewrite sud_ok in Hsud.
Qed.

(** The driver raises exactly when the first sweep does: on a puzzle [sud]
    cannot index, and then an [IndexError].  No later sweep raises. *)
Theorem driver_raises_iff fuel g e :
  sudoku_from fuel g = Crashed e ↔ ¬ indexable g ∧ e = IndexError.
Proof.
  split; [apply sudoku_from_crash|].
  intros [Hg ->]. unfold sudoku_from. by rewrite sud_not_indexable.
Qed.

(** ** The input loop *)

Lemma list_ascii_lookup inp k :
  String.list_ascii_of_string inp !! k = String.get k inp.
Proof.
  revert k. induction inp as [|c inp IH]; intros k; [by destruct k|].
  destruct k as [|k]; [done|]. cbn. apply IH.
Qed.

Lemma list_ascii_length inp :
  length (String.list_ascii_of_string inp) = String.length inp.
Proof. induction inp as [|c inp IH]; [done|]. cbn. by rewrite IH. Qed.

Lemma int_spec c :
  match Py.int c with
  | Ok v => Z.of_nat (Ascii.nat_of_ascii c) = v + 48 ∧ 0 ≤ v ≤ 9
  | Raise e => e = ValueError ∧ ¬ (48 ≤ Ascii.nat_of_ascii c ≤ 57)%nat
  end.
Proof. unfold Py.int. case_bool_decide; [lia|done]. Qed.

Lemma mapM_int_spec (cs : list Ascii.ascii) :
  match mapM Py.int cs with
  | Ok row =>
      length row = length cs ∧
      ∀ k v, row !! k = Some v →
        ∃ c, cs !! k = Some c ∧ Z.of_nat (Ascii.nat_of_ascii c) = v + 48 ∧ 0 ≤ v ≤ 9
  | Raise e =>
      e = ValueError ∧
      ∃ k c, cs !! k = Some c ∧ ¬ (48 ≤ Ascii.nat_of_ascii c ≤ 57)%nat
  end.
Proof.
  induction cs as [|c cs IH].
  { cbn. split; [done|]. intros k v Hv. by rewrite lookup_nil in Hv. }
  cbn [mapM]. pose proof (int_spec c) as Hc.
  destruct (Py.int c) as [y|e]; cbn [mbind res_bind].
  - destruct (mapM Py.int cs) as [row|e]; cbn [mbind res_bind].
    + destruct IH as [Hlen Hrow]. split; [cbn; by rewrite Hlen|].
      intros [|k] v Hv; cbn in Hv.
      * simplify_eq. by exists c.
      * by apply Hrow.
    + destruct IH as [-> (k & c' & Hk & Hc')]. split; [done|]. by exists (S k), c'.
  - destruct Hc as [-> Hc]. split; [done|]. by exists 0%nat, c.
Qed.

(** [map(int, str(inp))] gives one value per character of the line, the
    digit that stands there; it raises a [ValueError] exactly when some
    character of the line is not one of the ten digits, and raises nothing
    else. *)
Theorem map_int_spec inp :
  match Py.map_int inp with
  | Ok row =>
      length row = String.length inp ∧
      ∀ k v, row !! k = Some v →
        ∃ c, String.get k inp = Some c ∧
             Z.of_nat (Ascii.nat_of_ascii c) = v + 48 ∧ 0 ≤ v ≤ 9
  | Raise e =>
      e = ValueError ∧
      ∃ k c, String.get k inp = Some c ∧ ¬ (48 ≤ Ascii.nat_of_ascii c ≤ 57)%nat
  end.
Proof.
  unfold Py.map_int. pose proof (mapM_int_spec (String.list_ascii_of_string inp)) as H.
  destruct (mapM Py.int (String.list_ascii_of_string inp)) as [row|e].
  - destruct H as [Hlen Hrow]. split; [by rewrite Hlen, list_ascii_length|].
    intros k v Hv. destruct (Hrow k v Hv) as (c & Hc & Hval). exists c.
    by rewrite <-list_ascii_lookup.
  - destruct H as [-> (k & c & Hk & Hc)]. split; [done|]. exists k, c.
    by rewrite <-list_ascii_lookup.
Qed.

(** The turns of the input loop, from any state. *)
Lemma read_loop n : ∀ a (p : grid) (stdin : list String.string),
  Py.for_ (seq a n) (λ _ st,
    r ← raw_input st.2;
    row ← Py.map_int r.1;
    Ok (st.1 ++ [row], r.2)) (p, stdin)
  = if decide (n ≤ length stdin)%nat
    then rows ← mapM Py.map_int (take n stdin); Ok (p ++ rows, drop n stdin)
    else _ ← mapM Py.map_int stdin; Raise EOFError.
Proof.
  induction n as [|n IH]; intros a p stdin.
  - cbn [seq Py.for_]. rewrite decide_True by lia.
    change (take 0 stdin) with (@nil String.string). change (drop 0 stdin) with stdin.
    cbn. by rewrite app_nil_r.
  - cbn [seq Py.for_]. destruct stdin as [|inp stdin]; [done|].
    cbn [raw_input snd fst mbind res_bind].
    destruct (Py.map_int inp) as [row|e] eqn:Hrow; cbn [mbind res_bind].
    + rewrite IH. cbn [length take drop mapM]. rewrite Hrow. cbn [mbind res_bind].
      destruct (decide (n ≤ length stdin)%nat).
      * rewrite decide_True by lia.
        destruct (mapM Py.map_int (take n stdin)) as [rows|e]; [|done].
        cbn. by rewrite <-app_assoc.
      * rewrite decide_False by lia.
        by destruct (mapM Py.map_int stdin) as [rows|e].
    + cbn [length take mapM]. rewrite Hrow. by case_decide.
Qed.

Lemma read_puzzle_lines stdin :
  read_puzzle stdin
  = if decide (9 ≤ length stdin)%nat
    then mapM Py.map_int (take 9 stdin)
    else _ ← mapM Py.map_int stdin; Raise EOFError.
Proof.
  unfold read_puzzle, Py.range. rewrite read_loop. case_decide.
  - by destruct (mapM Py.map_int (take 9 stdin)).
  - by destruct (mapM Py.map_int stdin).
Qed.

(** The input loop reads the first nine lines and no more.  With at least
    nine lines its result is that of parsing these nine in turn; with fewer,
    it raises the [ValueError] of the first line that does not parse, and an
    [EOFError] when all of them parse. *)
Theorem read_puzzle_spec stdin :
  read_puzzle stdin
  = if decide (9 ≤ length stdin)%nat
    then mapM Py.map_int (take 9 stdin)
    else _ ← mapM Py.map_int stdin; Raise EOFError.
Proof.
  unfold read_puzzle, Py.range. rewrite read_loop.
  destruct (decide (9 ≤ length stdin)%nat) as [Hlen|Hlen].
  - destruct (mapM Py.map_int (take 9 stdin)) as [puzzle|e]; reflexivity.
  - destruct (mapM Py.map_int stdin) as [rows|e]; reflexivity.
Qed.

(** ** The whole script *)

Lemma cell_range_of_rows g :
  Forall (Forall (λ v, 0 ≤ v ≤ 9)) g → ∀ i j, 0 ≤ cell g i j ≤ 9.
Proof.
  intros Hg i j. destruct (decide (cell g i j = 0)) as [->|Hc]; [lia|].
  apply cell_nonzero_lookup in Hc as (row & Hrow & Hv).
  pose proof (Forall_lookup_1 _ _ _ _ Hg Hrow) as Hr.
  apply (Forall_lookup_1 _ _ _ _ Hr Hv).
Qed.

Lemma sweep_grid_range g :
  (∀ i j, 0 ≤ cell g i j ≤ 9) → ∀ i j, 0 ≤ cell (sweep_grid g) i j ≤ 9.
Proof.
  intros Hg i j. destruct (decide (i < 9 ∧ j < 9)%nat) as [[Hi Hj]|Hij];
    [|rewrite cell_outside by (done || apply sweep_grid_nine_by_nine); lia].
  rewrite cell_sweep_grid by done. unfold sweep_cell.
  case_bool_decide; [apply pick_candidates_range|apply Hg].
Qed.

(** Whatever the script prints as the solved result is a grid of nine rows
    of nine digits from 1 to 9. *)
Theorem script_result_digits fuel stdin out :
  sudoku fuel stdin = Solved out →
  nine_by_nine out ∧ Forall (Forall (λ v, 1 ≤ v ≤ 9)) out.
Proof.
  unfold sudoku. destruct (read_puzzle stdin) as [puzzle|e] eqn:Hread; [|done].
  intros H. apply read_puzzle_ok in Hread as [_ Hdig].
  destruct (sudoku_from_result (λ g, ∀ i j, 0 ≤ cell g i j ≤ 9) fuel puzzle out)
    as (Hout & Hc & Hrange); [|by apply cell_range_of_rows|done|].
  { intros g _. apply sweep_grid_range. }
  split; [done|]. rewrite (nine_by_nine_cells out Hout). unfold Py.range.
  apply Forall_fmap, Forall_seq. intros i Hi.
  apply Forall_fmap, Forall_seq. intros j Hj. cbn.
  specialize (Hc i j). specialize (Hrange i j). lia.
Qed.

Lemma script_result_digits_witness :
  sudoku 0 ones_input = Solved ones ∧
  nine_by_nine ones ∧ Forall (Forall (λ v, 1 ≤ v ≤ 9)) ones.
Proof.
  assert (sudoku 0 ones_input = Solved ones) as Hrun by (vm_compute; reflexivity).
  split; [exact Hrun|]. exact (script_result_digits 0 ones_input ones Hrun).
Defined.

Lemma mapM_raise_inv {A B} (f : A → res B) (l : list A) e :
  mapM f l = Raise e → ∃ x, x ∈ l ∧ f x = Raise e.
Proof.
  induction l as [|x l IH]; [done|]. cbn [mapM].
  intros [H|(y & _ & [H|(k & _ & H)]%bind_raise_inv)]%bind_raise_inv.
  - exists x. split; [by left|done].
  - destruct (IH H) as (x' & Hx' & Hf). exists x'. split; [by right|done].
  - done.
Qed.

Lemma mapM_ok_inv {A B} (f : A → res B) (l : list A) k y :
  mapM f l = Ok k → y ∈ k → ∃ x, x ∈ l ∧ f x = Ok y.
Proof.
  revert k. induction l as [|x l IH]; intros k H Hy.
  - injection H as <-. by apply elem_of_nil in Hy.
  - cbn [mapM] in H. apply bind_ok_inv in H as (y0 & Hy0 & H).
    apply bind_ok_inv in H as (k0 & Hk0 & H). injection H as <-.
    apply elem_of_cons in Hy as [->|Hy].
    + exists x. split; [by left|done].
    + destruct (IH _ Hk0 Hy) as (x' & Hx' & Hf). exists x'. split; [by right|done].
Qed.

(** The script ends in one of three exceptions.  [EOFError]: the input has
    fewer than nine lines.  [ValueError]: one of the first nine lines has a
    character that is not a digit.  [IndexError]: there are nine lines and
    one of the first nine has fewer than nine characters. *)
Theorem script_raises fuel stdin e :
  sudoku fuel stdin = Crashed e →
  (e = EOFError ∧ (length stdin < 9)%nat) ∨
  (e = ValueError ∧
   ∃ inp k c, inp ∈ take 9 stdin ∧ String.get k inp = Some c ∧
              ¬ (48 ≤ Ascii.nat_of_ascii c ≤ 57)%nat) ∨
  (e = IndexError ∧ (9 ≤ length stdin)%nat ∧
   ∃ inp, inp ∈ take 9 stdin ∧ (String.length inp < 9)%nat).
Proof.
  assert (∀ l e', mapM Py.map_int l = Raise e' →
    e' = ValueError ∧
    ∃ inp k c, inp ∈ l ∧ String.get k inp = Some c ∧
               ¬ (48 ≤ Ascii.nat_of_ascii c ≤ 57)%nat) as Hbad.
  { intros l e' (inp & Hinp & Hraise)%mapM_raise_inv.
    pose proof (map_int_raise _ _ Hraise) as ->. split; [done|].
    pose proof (mapM_int_spec (String.list_ascii_of_string inp)) as Hspec.
    unfold Py.map_int in Hraise. rewrite Hraise in Hspec.
    destruct Hspec as (_ & k & c & Hk & Hc). exists inp, k, c.
    by rewrite <-list_ascii_lookup. }
  unfold sudoku. rewrite read_puzzle_lines. case_decide as Hlen.
  - destruct (mapM Py.map_int (take 9 stdin)) as [puzzle|e'] eqn:Hread.
    + intros (Hg & ->)%sudoku_from_crash. right. right. split_and!; [done..|].
      assert (length puzzle = 9%nat) as Hrows.
      { assert (read_puzzle stdin = Ok puzzle) as Hr
          by (rewrite read_puzzle_lines; by rewrite decide_True).
        by apply read_puzzle_ok in Hr as [? _]. }
      assert (¬ Forall (λ row : list Z, 9 ≤ length row)%nat puzzle) as Hshort.
      { intros Hall. apply Hg. split; [lia|done]. }
      apply not_Forall_Exists, Exists_exists in Hshort as (row & Hrow & Hlt); [|apply _].
      destruct (mapM_ok_inv _ _ _ _ Hread Hrow) as (inp & Hinp & Hparse).
      exists inp. split; [done|]. cbn in Hlt.
      pose proof (mapM_int_spec (String.list_ascii_of_string inp)) as Hspec.
      unfold Py.map_int in Hparse. rewrite Hparse in Hspec.
      destruct Hspec as [Hl _]. rewrite list_ascii_length in Hl. lia.
    + intros H. simplify_eq. right. left. by apply Hbad.
  - destruct (mapM Py.map_int stdin) as [rows|e'] eqn:Hread; cbn [mbind res_bind].
    + intros H. simplify_eq. left. split; [done|lia].
    + intros H. simplify_eq. right. left.
      rewrite take_ge by lia. by apply Hbad.
Qed.

Lemma script_raises_witness :
  sudoku 3 (replicate 9 "12345678"%string) = Crashed IndexError ∧
  ((IndexError = EOFError ∧ (length (replicate 9 "12345678"%string) < 9)%nat) ∨
   (IndexError = ValueError ∧
    ∃ inp k c, inp ∈ take 9 (replicate 9 "12345678"%string) ∧
               String.get k inp = Some c ∧
               ¬ (48 ≤ Ascii.nat_of_ascii c ≤ 57)%nat) ∨
   (IndexError = IndexError ∧ (9 ≤ length (replicate 9 "12345678"%string))%nat ∧
    ∃ inp, inp ∈ take 9 (replicate 9 "12345678"%string) ∧ (String.length inp < 9)%nat)).
Proof.
  assert (sudoku 3 (replicate 9 "12345678"%string) = Crashed IndexError) as Hrun
    by (vm_compute; reflexivity).
  split; [exact Hrun|].
  exact (script_raises 3 (replicate 9 "12345678"%string) IndexError Hrun).
Defined.
